(** * pybrary-of-babel: the numeral codec, the sample generator and the
    classification of sandbox outcomes, embedded from
    [src/pybrary_of_babel/generate.py], [runner.py] and [experiment.py].

    Conventions of the embedding.
    - A Python [int] is a [Z]; [//] and [%] are floor division and its
      remainder, which is what [Z.div] and [Z.modulo] compute for every
      non-zero divisor; a zero divisor raises.
    - A candidate program (a Python [str] built by [chr] and read by [ord])
      is the list of its code points, each in [0, 0x10FFFF].
    - An identifier string (what [hex], [bytes.hex] produce and [int(_, 16)]
      reads) is a [string]; its characters are the code points below 256.
    - A [dict] keyed by identifier strings is a [gmap string _]: the
      claims read its length, its membership test and its items, never
      its order.
    - An exception is a value of [exn]; code that may raise returns a
      [result]. *)

From Stdlib Require Import ZArith Lia Ascii String List.
From Stdlib.Strings Require Import Byte.
From stdpp Require Import base gmap strings list fin_maps fin_sets.

Local Open Scope Z_scope.

(** ** Exceptions and the error monad *)

Inductive exn : Type :=
| InvalidLiteral (s : string)                 (* ValueError of int(s, 16) *)
| ChrOutOfRange (i : Z)                       (* chr(i) with i outside range(0x110000) *)
| NotReadableAscii (char : Z) (position : Z)  (* ValueError of program_to_hex_slow *)
| ZeroDivisionError.

Inductive result (A : Type) : Type :=
| Ok (a : A)
| Raise (e : exn).
Arguments Ok {A} a.
Arguments Raise {A} e.

#[global] Instance result_ret : MRet result := @Ok.
#[global] Instance result_bind : MBind result := λ A B f m,
  match m with
  | Ok a => f a
  | Raise e => Raise e
  end.

(** ** Python primitives *)

Definition py_floordiv (a b : Z) : result Z :=
  if b =? 0 then Raise ZeroDivisionError else Ok (a / b).

Definition py_mod (a b : Z) : result Z :=
  if b =? 0 then Raise ZeroDivisionError else Ok (a mod b).

(** A code point of a Python [str]. *)
Definition is_code_point (c : Z) : Prop := 0 <= c < 1114112.

(** [chr(i)]: defined on [range(0x110000)], an exception elsewhere
    (ValueError, or OverflowError beyond a C int: one constructor here). *)
Definition chr (i : Z) : result Z :=
  if (0 <=? i) && (i <? 1114112) then Ok i else Raise (ChrOutOfRange i).

(** [ord(c)]: a program is kept as the list of its code points. *)
Definition ord (c : Z) : Z := c.

(** *** [int(s, 16)] *)

Definition code (c : ascii) : Z := Z.of_N (N_of_ascii c).

(** [Py_ISSPACE]. *)
Definition is_space (c : ascii) : bool :=
  ((9 <=? code c) && (code c <=? 13)) || (code c =? 32).

(** [_PyLong_DigitValue]: 37 marks a character that is no digit. *)
Definition digit_value (c : ascii) : Z :=
  let n := code c in
  if (48 <=? n) && (n <=? 57) then n - 48
  else if (97 <=? n) && (n <=? 122) then n - 87
  else if (65 <=? n) && (n <=? 90) then n - 55
  else 37.

Definition is_underscore (c : ascii) : bool := code c =? 95.

(** What the conversion of a non-ASCII [str] to a digit buffer does to the
    characters below 256: NEL and NBSP become a space, the first other
    character from 127 on becomes a question mark and ends the buffer. *)
Fixpoint transform_to_ascii (s : string) : string :=
  match s with
  | EmptyString => EmptyString
  | String c s' =>
      if code c <? 127 then String c (transform_to_ascii s')
      else if (code c =? 133) || (code c =? 160)
           then String " "%char (transform_to_ascii s')
           else String "?"%char EmptyString
  end.

Fixpoint skip_spaces (s : string) : string :=
  match s with
  | String c s' => if is_space c then skip_spaces s' else s
  | EmptyString => s
  end.

(** The digit scan of a power-of-two base: digits, single underscores
    between them, no underscore at the end.  Returns the value, the number
    of digits and the rest of the buffer. *)
Fixpoint scan_digits (s : string) (prev_underscore : bool) (acc : Z) (digits : nat)
  : option (Z * nat * string) :=
  let stop := if prev_underscore then None else Some (acc, digits, s) in
  match s with
  | EmptyString => stop
  | String c s' =>
      if is_underscore c then
        if prev_underscore then None else scan_digits s' true acc digits
      else if digit_value c <? 16 then
        scan_digits s' false (acc * 16 + digit_value c) (S digits)
      else stop
  end.

Definition strip_sign (s : string) : Z * string :=
  match s with
  | String c s' =>
      if code c =? 43 then (1, s')
      else if code c =? 45 then (-1, s')
      else (1, s)
  | EmptyString => (1, s)
  end.

(** The base prefix 0x or 0X, and the one underscore allowed after it. *)
Definition strip_prefix (s : string) : string :=
  match s with
  | String c0 (String c1 s') =>
      if (code c0 =? 48) && ((code c1 =? 120) || (code c1 =? 88)) then
        match s' with
        | String c2 s'' => if is_underscore c2 then s'' else s'
        | EmptyString => s'
        end
      else s
  | _ => s
  end.

Definition starts_with_underscore (s : string) : bool :=
  match s with
  | String c _ => is_underscore c
  | EmptyString => false
  end.

Definition int16 (s : string) : result Z :=
  let (sign, s1) := strip_sign (skip_spaces (transform_to_ascii s)) in
  let s2 := strip_prefix s1 in
  if starts_with_underscore s2 then Raise (InvalidLiteral s)
  else
    match scan_digits s2 false 0 0 with
    | None => Raise (InvalidLiteral s)
    | Some (v, digits, rest) =>
        match digits, skip_spaces rest with
        | S _, EmptyString => Ok (sign * v)
        | _, _ => Raise (InvalidLiteral s)
        end
    end.

(** *** [hex(n)] and [bytes.hex()] *)

Definition hex_digit (d : Z) : ascii :=
  ascii_of_N (Z.to_N (if d <? 10 then 48 + d else 87 + d)).

(** The [k] low hexadecimal digits of [n], most significant first. *)
Fixpoint hex_digits (k : nat) (n : Z) : string :=
  match k with
  | O => EmptyString
  | S k' => String (hex_digit ((n / 16 ^ Z.of_nat k') mod 16)) (hex_digits k' n)
  end.

(** Number of hexadecimal digits of a non-negative [n] (one for zero). *)
Definition hex_length (n : Z) : nat := S (Z.to_nat (Z.log2 n / 4)).

Definition hex (n : Z) : string :=
  if n <? 0 then "-0x" +:+ hex_digits (hex_length (- n)) (- n)
  else "0x" +:+ hex_digits (hex_length n) n.

Definition byte_value (b : byte) : Z := Z.of_N (Byte.to_N b).

Fixpoint bytes_hex (bs : list byte) : string :=
  match bs with
  | [] => EmptyString
  | b :: bs' =>
      String (hex_digit (byte_value b / 16))
        (String (hex_digit (byte_value b mod 16)) (bytes_hex bs'))
  end.

(** ** generate.py *)

Fixpoint hex_to_program_slow_loop (positions : list nat)
    (program_number ascii_range ascii_min : Z) (program : list Z) : result (list Z) :=
  match positions with
  | [] => Ok program
  | position :: rest =>
      q ← py_floordiv program_number (ascii_range ^ Z.of_nat position);
      char_index ← py_mod q ascii_range;
      c ← chr (char_index + ascii_min);
      hex_to_program_slow_loop rest program_number ascii_range ascii_min (program ++ [c])
  end.

Definition hex_to_program_slow (hex_string : string)
    (program_length ascii_range ascii_min : Z) : result (list Z) :=
  program_number ← int16 hex_string;
  hex_to_program_slow_loop (seq 0 (Z.to_nat program_length))
    program_number ascii_range ascii_min [].

Fixpoint hex_to_program_loop (iterations : nat)
    (program_number ascii_range ascii_min : Z) (program : list Z) : result (list Z) :=
  match iterations with
  | O => Ok program
  | S iterations' =>
      char_index ← py_mod program_number ascii_range;
      program_number' ← py_floordiv program_number ascii_range;
      c ← chr (ascii_min + char_index);
      hex_to_program_loop iterations' program_number' ascii_range ascii_min (program ++ [c])
  end.

Definition hex_to_program (hex_string : string)
    (program_length ascii_range ascii_min : Z) : result (list Z) :=
  program_number ← int16 hex_string;
  hex_to_program_loop (Z.to_nat program_length) program_number ascii_range ascii_min [].

Fixpoint program_to_hex_slow_loop (program : list Z) (position : Z)
    (ascii_min ascii_max ascii_range : Z) (program_number : Z) : result Z :=
  match program with
  | [] => Ok program_number
  | char :: rest =>
      let ascii_value := ord char in
      if (ascii_value <? ascii_min) || (ascii_value >? ascii_max) then
        Raise (NotReadableAscii char position)
      else
        let char_index := ascii_value - ascii_min in
        program_to_hex_slow_loop rest (position + 1) ascii_min ascii_max ascii_range
          (program_number + char_index * ascii_range ^ position)
  end.

Definition program_to_hex_slow (program : list Z)
    (ascii_min ascii_max ascii_range : Z) : result string :=
  program_number ← program_to_hex_slow_loop program 0 ascii_min ascii_max ascii_range 0;
  mret (hex program_number).

(** The loop of [program_to_hex], over the reversed program. *)
Definition program_to_hex_number (program : list Z) (ascii_min ascii_range : Z) : Z :=
  fold_left (fun program_number char =>
               let char_index := ord char - ascii_min in
               program_number * ascii_range + char_index)
            (rev program) 0.

Definition program_to_hex (program : list Z) (ascii_min ascii_range : Z) : string :=
  hex (program_to_hex_number program ascii_min ascii_range).

(** numpy's [Generator], as far as [rng.bytes] uses it: an unbounded tape
    of bytes and a cursor.  Every stream of bytes is the tape of some
    generator (a generator without a seed draws its state from the
    operating system's entropy). *)
Record Generator : Type := {
  tape : nat → byte;
  cursor : nat
}.

(** [rng.bytes(length)]. *)
Definition rng_bytes (length : nat) (rng : Generator) : list byte * Generator :=
  (map (tape rng) (seq (cursor rng) length),
   {| tape := tape rng; cursor := (cursor rng + length)%nat |}).

Definition random_hex (bytes_needed : nat) (rng : Generator) : string * Generator :=
  let (drawn, rng') := rng_bytes bytes_needed rng in (bytes_hex drawn, rng').

(** [GeneratorConfig].  The source computes [bytes_needed] in floating
    point ([math.log2]); the embedding keeps its value as a field. *)
Record GeneratorConfig : Type := {
  line_length : Z;
  total_lines : Z;
  ascii_min : Z;
  ascii_max : Z;
  bytes_needed : nat
}.

Definition program_length (config : GeneratorConfig) : Z :=
  line_length config * total_lines config.

Definition ascii_range (config : GeneratorConfig) : Z :=
  ascii_max config - ascii_min config + 1.

(** ** runner.py *)

Record ExecutionResult : Type := {
  returncode : Z;
  stdout : list byte;
  stderr : list byte
}.

Definition ok (self : ExecutionResult) : bool := returncode self =? 0.

Definition timed_out (self : ExecutionResult) : bool := returncode self =? 124.

Definition success (self : ExecutionResult) : bool := ok self || timed_out self.

Definition __bool__ (self : ExecutionResult) : bool := ok self.

(** ** experiment.py *)

(** The sampling loop of [Experiment.run].  [fuel] bounds the number of
    times the loop condition is tested; [None] means the loop is still
    running when the fuel is spent. *)
Fixpoint sample_loop (fuel : nat) (config : GeneratorConfig) (n_samples : Z)
    (hex_program_map : gmap string (list Z)) (rng : Generator)
  : option (result (gmap string (list Z) * Generator)) :=
  match fuel with
  | O => None
  | S fuel' =>
      if Z.of_nat (size hex_program_map) <? n_samples then
        let (hex, rng') := random_hex (bytes_needed config) rng in
        match hex_program_map !! hex with
        | Some _ => sample_loop fuel' config n_samples hex_program_map rng'
        | None =>
            match hex_to_program hex (program_length config) (ascii_range config)
                    (ascii_min config) with
            | Ok program =>
                sample_loop fuel' config n_samples (<[hex := program]> hex_program_map) rng'
            | Raise e => Some (Raise e)
            end
        end
      else Some (Ok (hex_program_map, rng))
  end.

Definition sample_phase (fuel : nat) (config : GeneratorConfig) (n_samples : Z)
    (rng : Generator) : option (result (gmap string (list Z) * Generator)) :=
  sample_loop fuel config n_samples ∅ rng.

(** The workers: each item of the map is run once by the sandbox
    ([Runner.run]), an external process whose outcome is not a function of
    the program alone: the host is a state [World] threaded through the
    runs. *)
Fixpoint dispatch {World : Type} (runner_run : list Z → World → ExecutionResult * World)
    (items : list (string * list Z)) (w : World)
  : list (string * ExecutionResult) * World :=
  match items with
  | [] => ([], w)
  | (hex, program) :: rest =>
      let (result, w') := runner_run program w in
      let (results, w'') := dispatch runner_run rest w' in
      ((hex, result) :: results, w'')
  end.

(** The dictionary comprehension that keeps the successful runs. *)
Definition keep_successful (results : list (string * ExecutionResult))
  : gmap string ExecutionResult :=
  fold_left (λ out '(hex, result), if success result then <[hex := result]> out else out)
    results ∅.

Definition run_batch {World : Type} (runner_run : list Z → World → ExecutionResult * World)
    (hex_program_map : gmap string (list Z)) (w : World)
  : gmap string ExecutionResult * World :=
  let (results, w') := dispatch runner_run (map_to_list hex_program_map) w in
  (keep_successful results, w').

(** ** generate.py: the layout of a program in lines *)

(** [s[start:stop]] for a string and two integers: a negative index counts
    from the end, and both are clamped to the string. *)
Definition py_slice (s : list Z) (start stop : Z) : list Z :=
  let len := Z.of_nat (length s) in
  let adjust i := if i <? 0 then Z.max 0 (i + len) else Z.min i len in
  take (Z.to_nat (adjust stop - adjust start)) (drop (Z.to_nat (adjust start)) s).

(** [sep.join(parts)]. *)
Fixpoint py_join (sep : list Z) (parts : list (list Z)) : list Z :=
  match parts with
  | [] => []
  | [part] => part
  | part :: rest => part ++ sep ++ py_join sep rest
  end.

Fixpoint format_program_loop (line_nums : list nat) (program : list Z)
    (line_length : Z) (lines : list (list Z)) : list (list Z) :=
  match line_nums with
  | [] => lines
  | line_num :: rest =>
      let start := Z.of_nat line_num * line_length in
      let end_ := start + line_length in
      format_program_loop rest program line_length (lines ++ [py_slice program start end_])
  end.

(** The list [lines] of [format_program] when its loop ends. *)
Definition format_lines (program : list Z) (total_lines line_length : Z)
  : list (list Z) :=
  format_program_loop (seq 0 (Z.to_nat total_lines)) program line_length [].

Definition format_program (program : list Z) (total_lines line_length : Z) : list Z :=
  py_join [10] (format_lines program total_lines line_length).

(** ** experiment.py: the whole of [Experiment.run] *)

(** The sampling phase, then the batch.  An exception of the sampling
    phase leaves the method before any program is run. *)
Definition Experiment_run {World : Type}
    (runner_run : list Z → World → ExecutionResult * World)
    (fuel : nat) (config : GeneratorConfig) (n_samples : Z)
    (rng : Generator) (w : World)
  : option (result (gmap string ExecutionResult * Generator * World)) :=
  match sample_phase fuel config n_samples rng with
  | None => None
  | Some (Raise e) => Some (Raise e)
  | Some (Ok (hex_program_map, rng')) =>
      let (out, w') := run_batch runner_run hex_program_map w in
      Some (Ok (out, rng', w'))
  end.

(** ** Notions used by the statements *)

Definition in_alphabet (ascii_min ascii_range : Z) (program : list Z) : Prop :=
  Forall (λ c, ascii_min <= c <= ascii_min + ascii_range - 1) program.

(** The number [program_to_hex] accumulates, as a Horner sum from the
    first character. *)
Fixpoint horner (program : list Z) (ascii_min ascii_range : Z) : Z :=
  match program with
  | [] => 0
  | char :: rest => (char - ascii_min) + ascii_range * horner rest ascii_min ascii_range
  end.

(** The [k] low digits of [n] in base [r], least significant first: the
    character indices the decoding loop computes. *)
Fixpoint digits (k : nat) (n r : Z) : list Z :=
  match k with
  | O => []
  | S k' => n mod r :: digits k' (n / r) r
  end.

Fixpoint all_chars (P : ascii → bool) (s : string) : bool :=
  match s with
  | EmptyString => true
  | String c s' => P c && all_chars P s'
  end.

Definition is_hex_digit (c : ascii) : bool := digit_value c <? 16.

Definition is_lower_hex_digit (c : ascii) : bool :=
  ((48 <=? code c) && (code c <=? 57)) || ((97 <=? code c) && (code c <=? 102)).

(** The value of a run of hexadecimal digits, as the scan accumulates it. *)
Fixpoint digits_value (s : string) (acc : Z) : Z :=
  match s with
  | EmptyString => acc
  | String c s' => digits_value s' (acc * 16 + digit_value c)
  end.

(** The external form of an identifier: lowercase, prefixed by 0x, and no
    leading zero beyond the single digit of zero. *)
Definition canonical_hex (s : string) : bool :=
  match s with
  | String c0 (String c1 (String d ds)) =>
      (code c0 =? 48) && (code c1 =? 120) &&
      all_chars is_lower_hex_digit (String d ds) &&
      (negb (code d =? 48) || (String.length ds =? 0)%nat)
  | _ => false
  end.

(** The unsigned big-endian integer of a byte string. *)
Definition bytes_value (bs : list byte) : Z :=
  fold_left (λ acc b, acc * 256 + byte_value b) bs 0.

(** The byte of value [z], for [z] in [0, 255]. *)
Definition byte_of_Z (z : Z) : byte := byte_of_ascii (ascii_of_N (Z.to_N z)).

(** The [len] low bytes of [v], most significant first
    ([v.to_bytes(len, "big")] where [v] fits). *)
Fixpoint to_bytes (len : nat) (v : Z) : list byte :=
  match len with
  | O => []
  | S len' => byte_of_Z ((v / 256 ^ Z.of_nat len') mod 256) :: to_bytes len' v
  end.

(** A generator about to deliver the bytes [bs] (and zeros after them). *)
Definition generator_of (bs : list byte) : Generator :=
  {| tape := λ i, nth i bs x00; cursor := 0 |}.

(** Every byte, and every byte string of a given length. *)
Definition all_bytes : list byte := map (λ i, byte_of_Z (Z.of_nat i)) (seq 0 256).

Fixpoint all_byte_strings (len : nat) : list (list byte) :=
  match len with
  | O => [[]]
  | S len' => flat_map (λ b, map (cons b) (all_byte_strings len')) all_bytes
  end.

(** The keys of a sampled map are hex strings of [len] drawn bytes. *)
Definition drawn_keys (len : nat) (hex_program_map : gmap string (list Z)) : Prop :=
  ∀ h, is_Some (hex_program_map !! h) → ∃ bs, length bs = len ∧ h = bytes_hex bs.

(** Every program of a sampled map is the decoding of its key. *)
Definition decoded_map (config : GeneratorConfig)
    (hex_program_map : gmap string (list Z)) : Prop :=
  ∀ h p, hex_program_map !! h = Some p →
         hex_to_program h (program_length config) (ascii_range config)
           (ascii_min config) = Ok p.

(** A configuration of two characters and one position; the source's
    formula for [bytes_needed] gives [ceil(ceil(1 * log2(2)) / 8) = 1]. *)
Definition tiny_config : GeneratorConfig :=
  {| line_length := 1; total_lines := 1; ascii_min := 32; ascii_max := 33;
     bytes_needed := 1 |}.

(** A generator whose [i]-th draw of [len] bytes is the integer [i], most
    significant byte first. *)
Definition counting_generator (len : nat) : Generator :=
  {| tape := λ j, nth (j mod len) (to_bytes len (Z.of_nat (j / len))) x00;
     cursor := 0 |}.

(** ** The code on sample inputs *)

Example hex_255 : hex 255 = "0xff".
Proof. reflexivity. Qed.

Example hex_0 : hex 0 = "0x0".
Proof. reflexivity. Qed.

Example hex_neg : hex (-4096) = "-0x1000".
Proof. reflexivity. Qed.

Example int16_0e13 : int16 "0x0e13" = Ok 3603.
Proof. reflexivity. Qed.

Example int16_spaces : int16 "  -0X_dead_BEEF " = Ok (-3735928559).
Proof. reflexivity. Qed.

Example int16_bad : int16 "0x" = Raise (InvalidLiteral "0x").
Proof. reflexivity. Qed.

Example decode_0e13 : hex_to_program "0x0e13" 3 95 32 = Ok [120; 69; 32].
Proof. reflexivity. Qed.

Example decode_slow_0e13 : hex_to_program_slow "0x0e13" 3 95 32 = Ok [120; 69; 32].
Proof. reflexivity. Qed.

Example encode_xE : program_to_hex [120; 69; 32] 32 95 = "0xe13".
Proof. reflexivity. Qed.

(** ** Positional arithmetic shared by the proofs *)

Lemma bind_Ok {A B} (f : A → result B) (a : A) : (Ok a ≫= f) = f a.
Proof. reflexivity. Qed.

Lemma py_floordiv_nonzero a b : b ≠ 0 → py_floordiv a b = Ok (a / b).
Proof. intros Hb. unfold py_floordiv. destruct (Z.eqb_spec b 0); [lia | done]. Qed.

Lemma py_mod_nonzero a b : b ≠ 0 → py_mod a b = Ok (a mod b).
Proof. intros Hb. unfold py_mod. destruct (Z.eqb_spec b 0); [lia | done]. Qed.

Lemma pow_succ_nat r (k : nat) : r ^ Z.of_nat (S k) = r * r ^ Z.of_nat k.
Proof. rewrite Nat2Z.inj_succ, Z.pow_succ_r by lia. reflexivity. Qed.

Lemma pow_pos_nat r (k : nat) : 1 <= r → 1 <= r ^ Z.of_nat k.
Proof.
  intros Hr. induction k as [|k IH]; [simpl; lia|].
  rewrite pow_succ_nat. nia.
Qed.

Ltac run_step :=
  repeat first
    [ rewrite py_floordiv_nonzero by lia
    | rewrite py_mod_nonzero by lia
    | rewrite bind_Ok ];
  cbn beta.

Lemma pow_pred_split r (k : nat) :
  r ^ Z.of_nat (S k) - 1 = (r - 1) + (r ^ Z.of_nat k - 1) * r.
Proof. rewrite pow_succ_nat. lia. Qed.

Lemma chr_code_point i : is_code_point i → chr i = Ok i.
Proof.
  unfold is_code_point, chr. intros Hi.
  destruct (Z.leb_spec 0 i); [|lia]. destruct (Z.ltb_spec i 1114112); [done | lia].
Qed.

(** ** The loops of the codec, for a base [r] and an offset [m] *)

Section Codec.
Variables (r m : Z).

Lemma program_to_hex_number_horner program :
  program_to_hex_number program m r = horner program m r.
Proof.
  unfold program_to_hex_number. rewrite <- fold_left_rev_right, rev_involutive.
  induction program as [|c t IH]; [reflexivity|].
  cbn [fold_right horner]. rewrite IH. unfold ord. lia.
Qed.

Lemma program_to_hex_slow_loop_horner program : ∀ position acc,
  0 <= position →
  in_alphabet m r program →
  program_to_hex_slow_loop program position m (m + r - 1) r acc =
  Ok (acc + r ^ position * horner program m r).
Proof.
  induction program as [|c t IH]; intros position acc Hpos Hin.
  - cbn. f_equal. lia.
  - apply Forall_cons in Hin as [Hc Ht].
    cbn [program_to_hex_slow_loop horner]. unfold ord.
    destruct (Z.ltb_spec c m); [lia|].
    destruct (Z.gtb_spec c (m + r - 1)); [lia|]. cbn [orb].
    rewrite IH by (auto; lia). f_equal.
    rewrite Z.pow_add_r by lia. lia.
Qed.

Lemma horner_bounds program :
  in_alphabet m r program →
  0 <= horner program m r <= r ^ Z.of_nat (length program) - 1.
Proof.
  induction program as [|c t IH]; intros Hin; [cbn; lia|].
  apply Forall_cons in Hin as [Hc Ht]. specialize (IH Ht).
  cbn [length horner]. rewrite pow_succ_nat. nia.
Qed.

(** Decoding the Horner sum of a program gives the program back. *)
Lemma loop_horner program : ∀ acc,
  in_alphabet m r program → Forall is_code_point program →
  hex_to_program_loop (length program) (horner program m r) r m acc =
  Ok (acc ++ program).
Proof.
  induction program as [|c t IH]; intros acc Hin Hcp.
  - cbn. by rewrite app_nil_r.
  - apply Forall_cons in Hin as [Hc Ht]. apply Forall_cons in Hcp as [Hc' Ht'].
    cbn [length hex_to_program_loop horner]. run_step.
    replace (c - m + r * horner t m r) with ((c - m) + horner t m r * r) by lia.
    rewrite Z.mod_add, Z.div_add, Z.mod_small, Z.div_small by lia.
    replace (m + (c - m)) with c by lia.
    rewrite chr_code_point by done. run_step.
    rewrite Z.add_0_l, IH by done. by rewrite <- app_assoc.
Qed.

Lemma length_digits k : ∀ n, length (digits k n r) = k.
Proof. induction k as [|k IH]; intros n; cbn; [done | by rewrite IH]. Qed.

Section Base.
Hypothesis Hr : 1 <= r.

(** The direct-division loop started at [n / r^s] walks the positions
    [s, s+1, ...] of the positional-power loop. *)
Lemma loops_agree (k : nat) : ∀ (s : nat) n acc,
  hex_to_program_loop k (n / r ^ Z.of_nat s) r m acc =
  hex_to_program_slow_loop (seq s k) n r m acc.
Proof.
  induction k as [|k IH]; intros s n acc; [reflexivity|].
  pose proof (pow_pos_nat r s Hr) as Hpow.
  cbn [hex_to_program_loop hex_to_program_slow_loop seq].
  run_step. rewrite (Z.add_comm m).
  destruct (chr _) as [c|e]; [|reflexivity].
  run_step. rewrite <- IH.
  rewrite pow_succ_nat, Z.mul_comm, <- Z.div_div by lia.
  reflexivity.
Qed.

Lemma digits_in_alphabet k : ∀ n, in_alphabet m r (map (Z.add m) (digits k n r)).
Proof.
  unfold in_alphabet.
  induction k as [|k IH]; intros n; cbn [digits map]; constructor; [|by apply IH].
  pose proof (Z.mod_pos_bound n r). lia.
Qed.

Lemma horner_digits k : ∀ n,
  horner (map (Z.add m) (digits k n r)) m r = n mod r ^ Z.of_nat k.
Proof.
  induction k as [|k IH]; intros n.
  - cbn. by rewrite Z.mod_1_r.
  - cbn [digits map horner]. rewrite IH, pow_succ_nat.
    pose proof (pow_pos_nat r k Hr).
    rewrite Z.rem_mul_r by lia. lia.
Qed.

(** The decoding loop reads its number modulo [r^k] only. *)
Lemma loop_mod k : ∀ n acc,
  hex_to_program_loop k n r m acc =
  hex_to_program_loop k (n mod r ^ Z.of_nat k) r m acc.
Proof.
  induction k as [|k IH]; intros n acc; [reflexivity|].
  pose proof (pow_pos_nat r k Hr).
  cbn [hex_to_program_loop]. run_step.
  rewrite pow_succ_nat, Z.rem_mul_r by lia.
  replace (n mod r + r * ((n / r) mod r ^ Z.of_nat k))
    with (n mod r + (n / r) mod r ^ Z.of_nat k * r) by lia.
  pose proof (Z.mod_pos_bound n r).
  rewrite Z.mod_add, Z.div_add, Z.mod_mod, (Z.div_small (n mod r)) by lia.
  destruct (chr _) as [c|e]; [|reflexivity]. run_step.
  rewrite Z.add_0_l. apply IH.
Qed.

(** The two ends of the identifier range. *)
Lemma loop_zero k : ∀ acc c,
  chr m = Ok c →
  hex_to_program_loop k 0 r m acc = Ok (acc ++ repeat c k).
Proof.
  induction k as [|k IH]; intros acc c Hc.
  - cbn. by rewrite app_nil_r.
  - cbn [hex_to_program_loop repeat]. run_step.
    rewrite Z.mod_0_l, Z.div_0_l, Z.add_0_r, Hc by lia. run_step.
    rewrite (IH _ c) by done. by rewrite <- app_assoc.
Qed.

Lemma loop_max k : ∀ acc c,
  chr (m + (r - 1)) = Ok c →
  hex_to_program_loop k (r ^ Z.of_nat k - 1) r m acc = Ok (acc ++ repeat c k).
Proof.
  induction k as [|k IH]; intros acc c Hc.
  - cbn. by rewrite app_nil_r.
  - cbn [hex_to_program_loop repeat]. run_step.
    rewrite pow_pred_split, Z.mod_add, Z.div_add, Z.mod_small, Z.div_small by lia.
    rewrite Hc, Z.add_0_l. run_step.
    rewrite (IH _ c) by done. by rewrite <- app_assoc.
Qed.

Section CharacterCodes.
Hypothesis Hmin : 0 <= m.
Hypothesis Hmax : m + r - 1 <= 1114111.

(** With an alphabet of character codes the decoding loop cannot raise and
    appends the digits, shifted by [ascii_min]. *)
Lemma loop_digits k : ∀ n acc,
  hex_to_program_loop k n r m acc = Ok (acc ++ map (Z.add m) (digits k n r)).
Proof.
  induction k as [|k IH]; intros n acc.
  - cbn. by rewrite app_nil_r.
  - cbn [hex_to_program_loop digits map]. run_step.
    pose proof (Z.mod_pos_bound n r).
    rewrite chr_code_point by (unfold is_code_point; lia). run_step.
    rewrite IH. by rewrite <- app_assoc.
Qed.

End CharacterCodes.
End Base.
End Codec.

(** ** Identifier strings: what [hex] and [bytes.hex] print, [int16] reads *)

(** A hexadecimal digit is a plain character for the parser: the check
    runs over the 256 characters. *)
Lemma hex_digit_plain c :
  is_hex_digit c = true →
  (code c <? 127) = true ∧ is_space c = false ∧ is_underscore c = false ∧
  (code c =? 43) = false ∧ (code c =? 45) = false ∧
  (code c =? 120) = false ∧ (code c =? 88) = false.
Proof.
  destruct c as [[] [] [] [] [] [] [] []]; vm_compute; intros Hc;
    first [discriminate Hc | repeat split].
Qed.

Lemma transform_hex s : all_chars is_hex_digit s = true → transform_to_ascii s = s.
Proof.
  induction s as [|c s IH]; [done|]. cbn [all_chars transform_to_ascii].
  intros [Hc Hs]%andb_prop. destruct (hex_digit_plain c Hc) as (-> & _).
  by rewrite IH.
Qed.

Lemma scan_hex s : ∀ acc d,
  all_chars is_hex_digit s = true →
  scan_digits s false acc d =
  Some (digits_value s acc, (d + String.length s)%nat, EmptyString).
Proof.
  induction s as [|c s IH]; intros acc d; cbn [all_chars scan_digits digits_value String.length].
  - intros _. by rewrite Nat.add_0_r.
  - intros [Hc Hs]%andb_prop. destruct (hex_digit_plain c Hc) as (_ & _ & -> & _).
    unfold is_hex_digit in Hc. rewrite Hc, IH by done. do 3 f_equal. lia.
Qed.

(** Reading a non-empty run of hexadecimal digits, bare or after the
    prefix, with or without a minus sign. *)
Lemma int16_bare c s :
  all_chars is_hex_digit (String c s) = true →
  int16 (String c s) = Ok (digits_value (String c s) 0).
Proof.
  intros Hall. unfold int16. rewrite transform_hex by done.
  pose proof Hall as [Hc Hs]%andb_prop.
  destruct (hex_digit_plain c Hc) as (_ & Hsp & Hus & Hplus & Hminus & _).
  cbn [skip_spaces]. rewrite Hsp. cbn [strip_sign]. rewrite Hplus, Hminus.
  assert (strip_prefix (String c s) = String c s) as ->.
  { destruct s as [|c1 s]; [done|]. cbn [strip_prefix].
    cbn [all_chars] in Hs. apply andb_prop in Hs as [Hc1 _].
    destruct (hex_digit_plain c1 Hc1) as (_ & _ & _ & _ & _ & -> & ->).
    by rewrite andb_false_r. }
  cbn [starts_with_underscore]. rewrite Hus, scan_hex by done.
  cbn [Nat.add String.length skip_spaces]. f_equal; lia.
Qed.

Lemma transform_cons c s :
  (code c <? 127) = true →
  transform_to_ascii (String c s) = String c (transform_to_ascii s).
Proof. intros Hc. cbn [transform_to_ascii]. by rewrite Hc. Qed.

Lemma int16_prefixed c s :
  all_chars is_hex_digit (String c s) = true →
  int16 ("0x" +:+ String c s) = Ok (digits_value (String c s) 0).
Proof.
  intros Hall.
  change ("0x" +:+ String c s) with (String "0" (String "x" (String c s))).
  unfold int16. rewrite 2!transform_cons by reflexivity.
  rewrite transform_hex by done.
  pose proof Hall as [Hc Hs]%andb_prop.
  destruct (hex_digit_plain c Hc) as (_ & _ & Hus & _).
  change (skip_spaces (String "0" ?t)) with (String "0" t).
  change (strip_sign (String "0" ?t)) with (1, String "0" t).
  cbn [strip_prefix].
  change ((code "0" =? 48) && ((code "x" =? 120) || (code "x" =? 88))) with true.
  cbn match. rewrite Hus. cbn [starts_with_underscore]. rewrite Hus, scan_hex by done.
  cbn [Nat.add String.length skip_spaces]. f_equal; lia.
Qed.

Lemma int16_negative c s :
  all_chars is_hex_digit (String c s) = true →
  int16 ("-0x" +:+ String c s) = Ok (- digits_value (String c s) 0).
Proof.
  intros Hall.
  change ("-0x" +:+ String c s)
    with (String "-" (String "0" (String "x" (String c s)))).
  unfold int16. rewrite 3!transform_cons by reflexivity.
  rewrite transform_hex by done.
  pose proof Hall as [Hc Hs]%andb_prop.
  destruct (hex_digit_plain c Hc) as (_ & _ & Hus & _).
  change (skip_spaces (String "-" ?t)) with (String "-" t).
  change (strip_sign (String "-" ?t)) with (-1, t).
  cbn [strip_prefix].
  change ((code "0" =? 48) && ((code "x" =? 120) || (code "x" =? 88))) with true.
  cbn match. rewrite Hus. cbn [starts_with_underscore]. rewrite Hus, scan_hex by done.
  cbn [Nat.add String.length skip_spaces]. f_equal; lia.
Qed.

Lemma code_hex_digit d :
  0 <= d < 16 → code (hex_digit d) = if d <? 10 then 48 + d else 87 + d.
Proof.
  intros Hd. unfold code, hex_digit.
  rewrite N_ascii_embedding; destruct (Z.ltb_spec d 10); lia.
Qed.

Lemma below_16 (f : Z → bool) :
  forallb f (map Z.of_nat (seq 0 16)) = true → ∀ d, 0 <= d < 16 → f d = true.
Proof.
  intros Hall d Hd. eapply forallb_forall; [exact Hall|].
  apply in_map_iff. exists (Z.to_nat d). split; [lia|]. apply in_seq. lia.
Qed.

Lemma hex_digit_value d : 0 <= d < 16 → digit_value (hex_digit d) = d.
Proof.
  intros Hd. apply Z.eqb_eq.
  by apply (below_16 (λ d, digit_value (hex_digit d) =? d)).
Qed.

Lemma hex_digit_lower d : 0 <= d < 16 → is_lower_hex_digit (hex_digit d) = true.
Proof. intros Hd. by apply (below_16 (λ d, is_lower_hex_digit (hex_digit d))). Qed.

Lemma lower_is_hex c : is_lower_hex_digit c = true → is_hex_digit c = true.
Proof.
  destruct c as [[] [] [] [] [] [] [] []]; vm_compute; intros Hc;
    first [discriminate Hc | reflexivity].
Qed.

Lemma all_chars_impl (P Q : ascii → bool) s :
  (∀ c, P c = true → Q c = true) → all_chars P s = true → all_chars Q s = true.
Proof.
  intros HPQ. induction s as [|c s IH]; [done|]. cbn [all_chars].
  intros [Hc Hs]%andb_prop. by rewrite HPQ, IH.
Qed.

Lemma hex_digits_lower k n : all_chars is_lower_hex_digit (hex_digits k n) = true.
Proof.
  induction k as [|k IH]; [done|]. cbn [hex_digits all_chars].
  rewrite IH, hex_digit_lower; [done|]. apply Z.mod_pos_bound. lia.
Qed.

Lemma hex_digits_value k : ∀ n acc,
  digits_value (hex_digits k n) acc = acc * 16 ^ Z.of_nat k + n mod 16 ^ Z.of_nat k.
Proof.
  induction k as [|k IH]; intros n acc.
  - cbn. rewrite Z.mod_1_r. lia.
  - cbn [hex_digits digits_value].
    rewrite hex_digit_value by (apply Z.mod_pos_bound; lia).
    rewrite IH, pow_succ_nat.
    pose proof (pow_pos_nat 16 k ltac:(lia)).
    rewrite (Z.mul_comm 16 (16 ^ Z.of_nat k)), (Z.rem_mul_r n) by lia. lia.
Qed.

(** A positive [n] has exactly [hex_length n] hexadecimal digits. *)
Lemma hex_length_spec n :
  0 < n →
  16 ^ (Z.log2 n / 4) <= n < 16 ^ (Z.log2 n / 4 + 1) ∧
  Z.of_nat (hex_length n) = Z.log2 n / 4 + 1.
Proof.
  intros Hn. pose proof (Z.log2_spec n Hn) as [Hlo Hhi].
  pose proof (Z.log2_nonneg n) as Hl.
  pose proof (Z.div_pos (Z.log2 n) 4 Hl ltac:(lia)) as Hj.
  pose proof (Z.mul_div_le (Z.log2 n) 4 ltac:(lia)) as Hj1.
  pose proof (Z.mul_succ_div_gt (Z.log2 n) 4 ltac:(lia)) as Hj2.
  change 16 with (2 ^ 4). rewrite <- !Z.pow_mul_r by lia.
  repeat split.
  - etransitivity; [|exact Hlo]. apply Z.pow_le_mono_r; lia.
  - eapply Z.lt_le_trans; [exact Hhi|]. apply Z.pow_le_mono_r; lia.
  - unfold hex_length. lia.
Qed.

Lemma hex_length_bound n : 0 <= n → n < 16 ^ Z.of_nat (hex_length n).
Proof.
  intros Hn. destruct (Z.eq_dec n 0) as [->|Hne]; [done|].
  destruct (hex_length_spec n) as [[_ Hhi] ->]; [lia | done].
Qed.

Lemma hex_nonneg_value n :
  0 <= n → digits_value (hex_digits (hex_length n) n) 0 = n.
Proof.
  intros Hn. rewrite hex_digits_value.
  rewrite Z.mod_small; [lia|]. split; [done|]. by apply hex_length_bound.
Qed.

(** Parsing what [hex] prints recovers the integer, whatever its sign. *)
Lemma int16_hex n : int16 (hex n) = Ok n.
Proof.
  unfold hex, hex_length.
  destruct (Z.ltb_spec n 0) as [Hneg|Hpos]; cbn [hex_digits].
  - rewrite int16_negative.
    + pose proof (hex_nonneg_value (- n) ltac:(lia)) as Hv.
      unfold hex_length in Hv. cbn [hex_digits] in Hv. rewrite Hv. f_equal. lia.
    + apply (all_chars_impl _ _ _ lower_is_hex).
      apply (hex_digits_lower (S _)).
  - rewrite int16_prefixed.
    + pose proof (hex_nonneg_value n Hpos) as Hv.
      unfold hex_length in Hv. cbn [hex_digits] in Hv. by rewrite Hv.
    + apply (all_chars_impl _ _ _ lower_is_hex).
      apply (hex_digits_lower (S _)).
Qed.

(** ** The claims about the codec *)

(** C1. For an alphabet [min, min+range-1] of character codes and a length
    [L], encoding and decoding are inverse bijections between the programs
    of length [L] over the alphabet and the identifiers of
    [0, range^L - 1]: every such program is encoded to the [hex] of an
    identifier of that interval and decoded back to itself, and every
    identifier of the interval, both ends included, is decoded to a program
    of length [L] over the alphabet whose encoding is the [hex] of that
    identifier and parses back to it. *)
Theorem codec_round_trip (L min range : Z) :
  0 <= L → 1 <= range → 0 <= min → min + range - 1 <= 1114111 →
  (∀ p : list Z,
     Z.of_nat (length p) = L → in_alphabet min range p →
     ∃ id, 0 <= id <= range ^ L - 1 ∧
           program_to_hex p min range = hex id ∧
           hex_to_program (program_to_hex p min range) L range min = Ok p) ∧
  (∀ id : Z,
     0 <= id <= range ^ L - 1 →
     ∃ p, hex_to_program (hex id) L range min = Ok p ∧
          Z.of_nat (length p) = L ∧ in_alphabet min range p ∧
          program_to_hex p min range = hex id ∧
          int16 (program_to_hex p min range) = Ok id).
Proof.
  intros HL Hr Hmin Hmax. split.
  - intros p Hlen Hin. exists (horner p min range).
    pose proof (horner_bounds range min p Hin) as Hb. rewrite Hlen in Hb.
    unfold program_to_hex, hex_to_program.
    rewrite program_to_hex_number_horner, int16_hex.
    split; [done|]. split; [done|]. run_step.
    rewrite <- Hlen, Nat2Z.id. apply (loop_horner range min p []); [done|].
    unfold in_alphabet in Hin. eapply Forall_impl; [exact Hin|].
    unfold is_code_point. cbn. intros c Hc. lia.
  - intros id Hid. exists (map (Z.add min) (digits (Z.to_nat L) id range)).
    assert (program_to_hex (map (Z.add min) (digits (Z.to_nat L) id range)) min range
            = hex id) as Henc.
    { unfold program_to_hex.
      rewrite program_to_hex_number_horner, horner_digits, Z2Nat.id by done.
      f_equal. apply Z.mod_small. lia. }
    repeat split.
    + unfold hex_to_program. rewrite int16_hex. run_step.
      apply (loop_digits range min); lia.
    + rewrite length_map, length_digits. lia.
    + by apply digits_in_alphabet.
    + done.
    + rewrite Henc. apply int16_hex.
Qed.

Lemma codec_round_trip_witness :
  hex_to_program (program_to_hex [120; 69; 32] 32 95) 3 95 32 = Ok [120; 69; 32] ∧
  (∃ p, hex_to_program (hex 857374) 3 95 32 = Ok p ∧
        int16 (program_to_hex p 32 95) = Ok 857374).
Proof.
  destruct (codec_round_trip 3 32 95) as [Henc Hdec]; [lia | lia | lia | lia |].
  split.
  - destruct (Henc [120; 69; 32]) as (id & _ & _ & Hback); [reflexivity | |exact Hback].
    unfold in_alphabet. repeat constructor; lia.
  - destruct (Hdec 857374) as (p & Hp & _ & _ & _ & Hid); [vm_compute; split; discriminate|].
    exists p. split; [exact Hp | exact Hid].
Defined.

(** C4. The direct-division decoder and the positional-power decoder
    return the same result (the same program, or the same exception) for
    every hex string, every length [L >= 0], every [range >= 2] and every
    [min]; and for every program whose characters all lie in
    [min, min+range-1] the positional-power encoder, given
    [ascii_max = min+range-1], returns the very string of the production
    encoder. *)
Theorem codec_variants_agree :
  (∀ (h : string) (L range min : Z),
     0 <= L → 2 <= range →
     hex_to_program h L range min = hex_to_program_slow h L range min) ∧
  (∀ (p : list Z) (min range : Z),
     in_alphabet min range p →
     program_to_hex_slow p min (min + range - 1) range = Ok (program_to_hex p min range)).
Proof.
  split.
  - intros h L range min HL Hr. unfold hex_to_program, hex_to_program_slow.
    destruct (int16 h) as [n|e]; [|reflexivity]. run_step.
    rewrite <- loops_agree by lia. cbn [Z.of_nat Z.pow]. by rewrite Z.div_1_r.
  - intros p min range Hin. unfold program_to_hex_slow, program_to_hex.
    rewrite program_to_hex_slow_loop_horner by (done || lia). run_step.
    rewrite program_to_hex_number_horner. cbn. do 2 f_equal. lia.
Qed.

Lemma codec_variants_agree_witness :
  hex_to_program "0x0e13" 7900 95 32 = hex_to_program_slow "0x0e13" 7900 95 32 ∧
  program_to_hex_slow [120; 69; 32] 32 126 95 = Ok (program_to_hex [120; 69; 32] 32 95).
Proof.
  destruct codec_variants_agree as [Hdec Henc]. split.
  - apply Hdec; lia.
  - apply (Henc [120; 69; 32] 32 95). unfold in_alphabet. repeat constructor; lia.
Defined.

(** C7. For every [L >= 1], [range >= 2] and [min], a hex string that
    denotes the identifier 0 is decoded to [chr(min)] repeated [L] times,
    and one that denotes [range^L - 1] to [chr(min+range-1)] repeated [L]
    times; where that [chr] raises, so does the decoder, with the same
    exception. *)
Theorem decode_boundary_values (L range min : Z) :
  1 <= L → 2 <= range →
  (∀ h : string,
     int16 h = Ok 0 →
     hex_to_program h L range min = (c ← chr min; Ok (repeat c (Z.to_nat L)))) ∧
  (∀ h : string,
     int16 h = Ok (range ^ L - 1) →
     hex_to_program h L range min =
     (c ← chr (min + range - 1); Ok (repeat c (Z.to_nat L)))).
Proof.
  intros HL Hr.
  destruct (Z.to_nat L) as [|k] eqn:Hk; [lia|].
  split; intros h Hh; unfold hex_to_program; rewrite Hh, Hk; run_step.
  - cbn [hex_to_program_loop repeat]. run_step.
    rewrite Z.mod_0_l, Z.div_0_l, Z.add_0_r by lia.
    destruct (chr min) as [c|e] eqn:Hc; [|reflexivity]. run_step.
    by rewrite (loop_zero range min ltac:(lia) k _ c Hc).
  - replace L with (Z.of_nat (S k)) by lia.
    replace (min + range - 1) with (min + (range - 1)) by lia.
    cbn [hex_to_program_loop repeat]. run_step.
    rewrite pow_pred_split, Z.mod_add, Z.div_add, Z.mod_small, Z.div_small by lia.
    destruct (chr (min + (range - 1))) as [c|e] eqn:Hc; [|reflexivity]. run_step.
    by rewrite Z.add_0_l, (loop_max range min ltac:(lia) k _ c Hc).
Qed.

Lemma decode_boundary_values_witness :
  hex_to_program "0x0" 3 95 32 = Ok [32; 32; 32] ∧
  hex_to_program "0xd151e" 3 95 32 = Ok [126; 126; 126].
Proof.
  destruct (decode_boundary_values 3 95 32) as [Hlow Hhigh]; [lia | lia |].
  split.
  - apply (Hlow "0x0"). reflexivity.
  - apply (Hhigh "0xd151e"). reflexivity.
Defined.

(** ** Drawn identifiers *)

Lemma byte_value_bound b : 0 <= byte_value b < 256.
Proof. unfold byte_value. pose proof (Byte.to_N_bounded b). lia. Qed.

Lemma byte_value_of_Z z : 0 <= z < 256 → byte_value (byte_of_Z z) = z.
Proof.
  intros Hz. unfold byte_value, byte_of_Z.
  rewrite (Byte.to_of_N (N_of_ascii (ascii_of_N (Z.to_N z)))).
  - rewrite N_ascii_embedding; lia.
  - symmetry. apply byte_of_ascii_via_N.
Qed.

Lemma bytes_hex_lower bs : all_chars is_lower_hex_digit (bytes_hex bs) = true.
Proof.
  induction bs as [|b bs IH]; [done|]. cbn [bytes_hex all_chars].
  pose proof (byte_value_bound b) as Hb.
  rewrite !hex_digit_lower, IH; [done| |].
  - apply Z.mod_pos_bound. lia.
  - split; [apply Z.div_pos | apply Z.div_lt_upper_bound]; lia.
Qed.

Lemma bytes_hex_length bs : String.length (bytes_hex bs) = (2 * length bs)%nat.
Proof. induction bs as [|b bs IH]; cbn [bytes_hex String.length length]; lia. Qed.

Lemma bytes_hex_value bs : ∀ acc,
  digits_value (bytes_hex bs) acc = fold_left (λ a b, a * 256 + byte_value b) bs acc.
Proof.
  induction bs as [|b bs IH]; intros acc; [done|].
  pose proof (byte_value_bound b) as Hb.
  cbn [bytes_hex digits_value fold_left]. rewrite !hex_digit_value.
  - rewrite IH. f_equal. pose proof (Z.div_mod (byte_value b) 16). lia.
  - apply Z.mod_pos_bound. lia.
  - split; [apply Z.div_pos | apply Z.div_lt_upper_bound]; lia.
Qed.

(** Reading what [bytes.hex] prints for at least one byte gives the
    unsigned big-endian integer of the bytes. *)
Lemma int16_bytes_hex bs : bs ≠ [] → int16 (bytes_hex bs) = Ok (bytes_value bs).
Proof.
  intros Hne. destruct bs as [|b bs]; [done|].
  pose proof (bytes_hex_lower (b :: bs)) as Hall.
  apply (all_chars_impl _ _ _ lower_is_hex) in Hall.
  cbn [bytes_hex] in *. rewrite int16_bare by done.
  f_equal. apply (bytes_hex_value (b :: bs) 0).
Qed.

Lemma to_bytes_length len v : length (to_bytes len v) = len.
Proof. induction len as [|len IH]; cbn; [done | by rewrite IH]. Qed.

Lemma to_bytes_value len : ∀ v acc,
  fold_left (λ a b, a * 256 + byte_value b) (to_bytes len v) acc =
  acc * 256 ^ Z.of_nat len + v mod 256 ^ Z.of_nat len.
Proof.
  induction len as [|len IH]; intros v acc.
  - cbn. rewrite Z.mod_1_r. lia.
  - cbn [to_bytes fold_left].
    rewrite byte_value_of_Z by (apply Z.mod_pos_bound; lia).
    rewrite IH, pow_succ_nat.
    pose proof (pow_pos_nat 256 len ltac:(lia)).
    rewrite (Z.mul_comm 256 (256 ^ Z.of_nat len)), (Z.rem_mul_r v) by lia. lia.
Qed.

Lemma bytes_value_to_bytes len v :
  0 <= v < 256 ^ Z.of_nat len → bytes_value (to_bytes len v) = v.
Proof.
  intros Hv. unfold bytes_value. rewrite to_bytes_value, Z.mod_small by done. lia.
Qed.

Lemma tape_of_bytes bs :
  map (λ i, nth i bs x00) (seq 0 (length bs)) = bs.
Proof.
  induction bs as [|b bs IH]; [done|].
  cbn [length seq map nth]. f_equal.
  rewrite <- seq_shift, map_map. exact IH.
Qed.

Lemma random_hex_generator_of bs :
  (random_hex (length bs) (generator_of bs)).1 = bytes_hex bs.
Proof. unfold random_hex, rng_bytes, generator_of. cbn. by rewrite tape_of_bytes. Qed.

Lemma random_hex_drawn bytes_needed rng :
  (random_hex bytes_needed rng).1 = bytes_hex (rng_bytes bytes_needed rng).1.
Proof. reflexivity. Qed.

Lemma rng_bytes_length len rng : length (rng_bytes len rng).1 = len.
Proof. unfold rng_bytes. cbn. by rewrite length_map, length_seq. Qed.

Lemma int16_random_hex_of len v :
  0 <= v < 256 ^ Z.of_nat len → (0 < len)%nat →
  int16 (random_hex len (generator_of (to_bytes len v))).1 = Ok v.
Proof.
  intros Hv Hlen.
  rewrite <- (to_bytes_length len v) at 1.
  rewrite random_hex_generator_of, int16_bytes_hex.
  - by rewrite bytes_value_to_bytes.
  - destruct len; [lia | done].
Qed.

(** C9. Decoding reads the identifier modulo [range^L] only: two hex
    strings whose integers are congruent modulo [range^L] have the same
    decoding, for every [L >= 0], [range >= 2] and [min].  In particular,
    whenever [bytes_needed] bytes can hold more than [range^L - 1], two
    generators draw distinct hex strings, denoting 0 and [range^L], that
    have the same decoding: the identifier outside [0, range^L - 1] is
    wrapped to the program of 0, not rejected. *)
Theorem decode_depends_on_residue :
  (∀ (h h' : string) (n n' L range min : Z),
     0 <= L → 2 <= range →
     int16 h = Ok n → int16 h' = Ok n' →
     n mod range ^ L = n' mod range ^ L →
     hex_to_program h L range min = hex_to_program h' L range min) ∧
  (∀ (L range min : Z) (bytes_needed : nat),
     0 <= L → 2 <= range → range ^ L < 256 ^ Z.of_nat bytes_needed →
     ∃ rng rng' : Generator,
       let h := (random_hex bytes_needed rng).1 in
       let h' := (random_hex bytes_needed rng').1 in
       h ≠ h' ∧ int16 h = Ok 0 ∧ int16 h' = Ok (range ^ L) ∧
       hex_to_program h L range min = hex_to_program h' L range min ∧
       (∀ c, chr min = Ok c →
             hex_to_program h' L range min = Ok (repeat c (Z.to_nat L)))).
Proof.
  assert (∀ (h h' : string) (n n' L range min : Z),
     0 <= L → 1 <= range →
     int16 h = Ok n → int16 h' = Ok n' →
     n mod range ^ L = n' mod range ^ L →
     hex_to_program h L range min = hex_to_program h' L range min) as Hmod.
  { intros h h' n n' L range min HL Hr Hn Hn' Hcong.
    unfold hex_to_program. rewrite Hn, Hn'. run_step.
    rewrite (loop_mod range min Hr _ n), (loop_mod range min Hr _ n').
    rewrite Z2Nat.id by done. by rewrite Hcong. }
  split; [intros; eapply Hmod; eauto; lia|].
  intros L range min b HL Hr Hroom.
  assert (1 <= range ^ L) as Hpow.
  { rewrite <- (Z2Nat.id L) by done. apply pow_pos_nat. lia. }
  assert (0 < b)%nat as Hb.
  { destruct b; [cbn in Hroom; lia | lia]. }
  exists (generator_of (to_bytes b 0)), (generator_of (to_bytes b (range ^ L))).
  cbn zeta.
  pose proof (int16_random_hex_of b 0 ltac:(lia) Hb) as H0.
  pose proof (int16_random_hex_of b (range ^ L) ltac:(lia) Hb) as H1.
  split; [|split; [done|split; [done|split]]].
  - intros Heq. rewrite Heq, H1 in H0. inversion H0. lia.
  - apply (Hmod _ _ 0 (range ^ L)); [done | lia | done | done |].
    rewrite Z.mod_0_l, Z.mod_same by lia. done.
  - intros c Hc. unfold hex_to_program. rewrite H1. run_step.
    rewrite loop_mod, Z2Nat.id, Z.mod_same by lia.
    apply (loop_zero range min ltac:(lia) _ [] c Hc).
Qed.

Lemma decode_depends_on_residue_witness :
  hex_to_program "0x1" 3 95 32 = hex_to_program "d1520" 3 95 32 ∧
  (∃ rng rng' : Generator,
     (random_hex 1 rng).1 ≠ (random_hex 1 rng').1 ∧
     hex_to_program (random_hex 1 rng).1 1 2 32 =
     hex_to_program (random_hex 1 rng').1 1 2 32).
Proof.
  destruct decode_depends_on_residue as [Hmod Hdraw]. split.
  - apply (Hmod "0x1" "d1520" 1 857376 3 95 32); [lia | lia | reflexivity | reflexivity |].
    reflexivity.
  - destruct (Hdraw 1 2 32 1%nat) as (rng & rng' & Hne & _ & _ & Heq & _);
      [lia | lia | reflexivity |].
    exists rng, rng'. split; [exact Hne | exact Heq].
Defined.

(** *** The external form of identifiers *)

Lemma canonical_hex_nonneg n : 0 <= n → canonical_hex (hex n) = true.
Proof.
  intros Hn. unfold hex. destruct (Z.ltb_spec n 0) as [|_]; [lia|].
  unfold hex_length. set (j := Z.to_nat (Z.log2 n / 4)).
  change ("0x" +:+ hex_digits (S j) n)
    with (String "0" (String "x" (hex_digits (S j) n))).
  pose proof (hex_digits_lower (S j) n) as Hlow.
  cbn [hex_digits] in *. cbn [canonical_hex]. rewrite Hlow.
  change ((code "0" =? 48) && (code "x" =? 120)) with true. cbn [andb].
  destruct (Z.eq_dec n 0) as [->|Hne].
  - subst j. by rewrite orb_true_r.
  - destruct (hex_length_spec n ltac:(lia)) as [[Hlo Hhi] Hlen].
    assert (Z.of_nat j = Z.log2 n / 4) as Hj by (unfold hex_length in Hlen; lia).
    rewrite Hj. set (top := n / 16 ^ (Z.log2 n / 4)).
    assert (1 <= top < 16) as Htop.
    { subst top. split.
      - apply Z.div_le_lower_bound; lia.
      - apply Z.div_lt_upper_bound; [lia|].
        pose proof (Z.div_pos (Z.log2 n) 4 (Z.log2_nonneg n) ltac:(lia)).
        rewrite Z.pow_add_r, Z.pow_1_r in Hhi by lia. lia. }
    rewrite (Z.mod_small top) by lia. rewrite code_hex_digit by lia.
    replace ((if top <? 10 then 48 + top else 87 + top) =? 48) with false; [done|].
    symmetry. apply Z.eqb_neq. destruct (Z.ltb_spec top 10); lia.
Qed.

Lemma bytes_hex_not_canonical bs : canonical_hex (bytes_hex bs) = false.
Proof.
  destruct bs as [|b [|b' bs]]; [done | done |]. cbn [bytes_hex canonical_hex].
  pose proof (byte_value_bound b) as Hb.
  rewrite (code_hex_digit (byte_value b mod 16)) by (apply Z.mod_pos_bound; lia).
  pose proof (Z.mod_pos_bound (byte_value b) 16 ltac:(lia)).
  replace (_ =? 120) with false; [by rewrite andb_false_r|].
  destruct (Z.ltb_spec (byte_value b mod 16) 10); symmetry; apply Z.eqb_neq; lia.
Qed.

(** ** The claims about execution results *)

(** C3. For every execution result: [ok] holds exactly when the return
    code is 0, [timed_out] exactly when it is 124, [success] exactly when
    one of the two holds, and every other return code is a failure, with
    the three of them false. *)
Theorem outcome_classification (res : ExecutionResult) :
  (ok res = true ↔ returncode res = 0) ∧
  (timed_out res = true ↔ returncode res = 124) ∧
  (success res = true ↔ ok res = true ∨ timed_out res = true) ∧
  (returncode res ≠ 0 → returncode res ≠ 124 →
   ok res = false ∧ timed_out res = false ∧ success res = false).
Proof.
  unfold success, ok, timed_out.
  destruct (Z.eqb_spec (returncode res) 0), (Z.eqb_spec (returncode res) 124);
    cbn; intuition (congruence || lia).
Qed.

Lemma outcome_classification_witness :
  let res := {| returncode := 1; stdout := []; stderr := [] |} in
  ok res = false ∧ timed_out res = false ∧ success res = false.
Proof.
  intros res.
  destruct (outcome_classification res) as (_ & _ & _ & Hfailed).
  apply Hfailed; cbn; lia.
Defined.

(** C10. The truth value of an execution result is [ok]: it is true
    exactly when the return code is 0, and it differs from [success]
    exactly on the timed-out results (return code 124), which are falsy
    although successful. *)
Theorem truthiness_is_ok (res : ExecutionResult) :
  __bool__ res = ok res ∧
  (__bool__ res = true ↔ returncode res = 0) ∧
  (__bool__ res ≠ success res ↔ returncode res = 124) ∧
  (returncode res = 124 → __bool__ res = false ∧ success res = true).
Proof.
  unfold __bool__, success, ok, timed_out.
  destruct (Z.eqb_spec (returncode res) 0), (Z.eqb_spec (returncode res) 124);
    cbn; intuition (congruence || lia).
Qed.

Lemma truthiness_is_ok_witness :
  let res := {| returncode := 124; stdout := []; stderr := [] |} in
  __bool__ res = false ∧ success res = true.
Proof.
  intros res.
  destruct (truthiness_is_ok res) as (_ & _ & _ & Htimeout).
  apply Htimeout. reflexivity.
Defined.

(** ** The claims about validation and the form of identifiers *)

(** C2, on the code.  With the alphabet [33, 126] the production encoder
    returns an identifier for the program of one space (code 32, below the
    alphabet) where the positional-power encoder raises the error naming
    the character and its position; and with the alphabet [32, 33] it
    encodes the tilde (code 126, above the alphabet) to an identifier that
    is decoded to a space. *)
Theorem program_to_hex_does_not_validate :
  program_to_hex [32] 33 94 = "-0x1" ∧
  program_to_hex_slow [32] 33 126 94 = Raise (NotReadableAscii 32 0) ∧
  program_to_hex [126] 32 2 = "0x5e" ∧
  hex_to_program "0x5e" 1 2 32 = Ok [32].
Proof. repeat split. Qed.

(** C8, as the code has it.  The encoder's string for a program over the
    alphabet is lowercase, prefixed by 0x and free of leading zeros, and
    for every program it parses back to the encoded integer.  A string of
    the sample generator is made of exactly [2 * bytes_needed] lowercase
    hexadecimal digits, zero-padded to that width and without prefix, and
    for [bytes_needed >= 1] it parses to the unsigned big-endian integer of
    the drawn bytes. *)
Theorem identifier_strings :
  (∀ (p : list Z) (min range : Z),
     int16 (program_to_hex p min range) = Ok (program_to_hex_number p min range) ∧
     (in_alphabet min range p → canonical_hex (program_to_hex p min range) = true)) ∧
  (∀ (bytes_needed : nat) (rng : Generator),
     let h := (random_hex bytes_needed rng).1 in
     String.length h = (2 * bytes_needed)%nat ∧
     all_chars is_lower_hex_digit h = true ∧
     canonical_hex h = false ∧
     ((0 < bytes_needed)%nat →
      int16 h = Ok (bytes_value (rng_bytes bytes_needed rng).1))).
Proof.
  split.
  - intros p min range. split; [apply int16_hex|].
    intros Hin. unfold program_to_hex. apply canonical_hex_nonneg.
    rewrite program_to_hex_number_horner.
    by destruct (horner_bounds range min p Hin).
  - intros b rng. cbn zeta. rewrite random_hex_drawn.
    pose proof (rng_bytes_length b rng) as Hlen.
    repeat split.
    + by rewrite bytes_hex_length, Hlen.
    + apply bytes_hex_lower.
    + apply bytes_hex_not_canonical.
    + intros Hb. apply int16_bytes_hex.
      destruct (rng_bytes b rng).1; [cbn in Hlen; lia | done].
Qed.

Lemma identifier_strings_witness :
  canonical_hex (program_to_hex [120; 69; 32] 32 95) = true ∧
  int16 (random_hex 2 (generator_of [x0e; x13])).1 = Ok 3603.
Proof.
  destruct identifier_strings as [Henc Hdraw]. split.
  - apply (Henc [120; 69; 32] 32 95). unfold in_alphabet. repeat constructor; lia.
  - destruct (Hdraw 2%nat (generator_of [x0e; x13])) as (_ & _ & _ & Hparse).
    apply Hparse. lia.
Defined.

(** C8, as stated, fails on the sample generator: the string drawn for the
    byte 0x0a has no prefix and a leading zero. *)
Lemma random_hex_not_canonical :
  (random_hex 1 (generator_of [x0a])).1 = "0a" ∧
  canonical_hex (random_hex 1 (generator_of [x0a])).1 = false.
Proof. split; reflexivity. Qed.

(** ** The claims about the batch *)

Lemma dispatch_identifiers {World : Type}
    (runner_run : list Z → World → ExecutionResult * World)
    (items : list (string * list Z)) :
  ∀ w, (dispatch runner_run items w).1.*1 = items.*1.
Proof.
  induction items as [|[hex program] items IH]; intros w; [done|].
  cbn [dispatch]. destruct (runner_run program w) as [result w'].
  specialize (IH w'). destruct (dispatch runner_run items w') as [results w''].
  cbn in *. by rewrite IH.
Qed.

(** The comprehension, started from a dictionary [out] that holds none of
    the identifiers still to come. *)
Lemma keep_successful_from (results : list (string * ExecutionResult)) :
  ∀ out : gmap string ExecutionResult,
  NoDup results.*1 →
  (∀ h, h ∈ results.*1 → out !! h = None) →
  ∀ h r,
    fold_left (λ out '(hex, result), if success result then <[hex := result]> out else out)
      results out !! h = Some r ↔
    out !! h = Some r ∨ ((h, r) ∈ results ∧ success r = true).
Proof.
  induction results as [|[k v] results IH]; intros out Hnd Hfresh h r.
  - cbn. split; [by left|]. intros [?|[Hin _]]; [done|]. by apply elem_of_nil in Hin.
  - cbn [fmap list_fmap fst] in Hnd. apply NoDup_cons in Hnd as [Hk Hnd].
    pose proof (Hfresh k ltac:(left)) as Hkout.
    cbn [fold_left]. rewrite IH; [|done|].
    + rewrite elem_of_cons. destruct (success v) eqn:Hv.
      * rewrite lookup_insert. case_decide as Hkh.
        -- subst h. split.
           ++ intros [Heq|[Hin Hr]]; [simplify_eq; eauto|eauto].
           ++ intros [Hout|[[Heq|Hin] Hr]]; [congruence|simplify_eq; eauto|eauto].
        -- split.
           ++ intros [?|[? ?]]; eauto.
           ++ intros [?|[[Heq|?] ?]]; [eauto|simplify_eq|eauto].
      * split.
        -- intros [?|[? ?]]; eauto.
        -- intros [?|[[Heq|?] ?]]; [eauto|simplify_eq; congruence|eauto].
    + intros h' Hh'. assert (h' ∈ ((k, v) :: results).*1) as Hin by (by right).
      specialize (Hfresh h' Hin). destruct (success v); [|done].
      rewrite lookup_insert_ne; [done|]. intros ->. done.
Qed.

(** C6. For every list of (identifier, result) pairs with distinct
    identifiers, the returned dictionary maps an identifier to a result
    exactly when that pair is in the list and the result is a success; and
    the list the batch produces is such a list, with one pair for each
    identifier of the sampled map and for no other. *)
Theorem batch_keeps_exactly_the_successes :
  (∀ results : list (string * ExecutionResult),
     NoDup results.*1 →
     ∀ h r, keep_successful results !! h = Some r ↔
            (h, r) ∈ results ∧ success r = true) ∧
  (∀ (World : Type) (runner_run : list Z → World → ExecutionResult * World)
     (hex_program_map : gmap string (list Z)) (w : World),
     let results := (dispatch runner_run (map_to_list hex_program_map) w).1 in
     NoDup results.*1 ∧
     (∀ h, h ∈ results.*1 ↔ is_Some (hex_program_map !! h)) ∧
     (run_batch runner_run hex_program_map w).1 = keep_successful results).
Proof.
  split.
  - intros results Hnd h r. unfold keep_successful.
    rewrite keep_successful_from; [|done|intros; apply lookup_empty].
    rewrite lookup_empty. split; [intros [?|?]; done | by right].
  - intros World runner_run hm w. cbn zeta.
    rewrite dispatch_identifiers. repeat split.
    + apply NoDup_fst_map_to_list.
    + intros [[k p] [-> Hin]]%list_elem_of_fmap.
      apply elem_of_map_to_list in Hin. by exists p.
    + intros [p Hp]. apply list_elem_of_fmap. exists (h, p).
      split; [done|]. by apply elem_of_map_to_list.
    + unfold run_batch. by destruct (dispatch _ _ _).
Qed.

Lemma batch_keeps_exactly_the_successes_witness :
  let crashed := {| returncode := 1; stdout := []; stderr := [] |} in
  let expired := {| returncode := 124; stdout := []; stderr := [] |} in
  keep_successful [("00", crashed); ("01", expired)] !! "01" = Some expired ∧
  keep_successful [("00", crashed); ("01", expired)] !! "00" = None.
Proof.
  intros crashed expired.
  destruct batch_keeps_exactly_the_successes as [Hkeep _].
  assert (NoDup [("00", crashed); ("01", expired)].*1) as Hnd.
  { apply (bool_decide_unpack _). vm_compute. exact I. }
  split.
  - apply (Hkeep _ Hnd). split; [repeat constructor | reflexivity].
  - destruct (keep_successful _ !! "00") as [r|] eqn:Hr; [|reflexivity].
    apply (Hkeep _ Hnd) in Hr as [Hin Hsucc].
    apply elem_of_cons in Hin as [Heq|Hin]; [by inversion Heq; subst|].
    apply elem_of_cons in Hin as [Heq|Hin]; [by inversion Heq|].
    by apply elem_of_nil in Hin.
Defined.

(** ** The claims about the sampling loop *)

Lemma byte_of_value b : byte_of_Z (byte_value b) = b.
Proof.
  unfold byte_of_Z, byte_value. rewrite N2Z.id.
  pose proof (byte_of_ascii_via_N (ascii_of_N (Byte.to_N b))) as Hvia.
  pose proof (Byte.to_N_bounded b) as Hb.
  rewrite N_ascii_embedding, Byte.of_to_N in Hvia by lia. congruence.
Qed.

Lemma in_all_bytes b : In b all_bytes.
Proof.
  unfold all_bytes. apply in_map_iff. exists (Z.to_nat (byte_value b)).
  pose proof (byte_value_bound b) as Hb. split.
  - rewrite Z2Nat.id by lia. apply byte_of_value.
  - apply in_seq. lia.
Qed.

Lemma all_byte_strings_length len :
  Z.of_nat (length (all_byte_strings len)) = 256 ^ Z.of_nat len.
Proof.
  induction len as [|len IH]; [done|]. cbn [all_byte_strings].
  rewrite (flat_map_constant_length (c := length (all_byte_strings len))).
  - unfold all_bytes. rewrite length_map, length_seq, pow_succ_nat. lia.
  - intros b _. apply length_map.
Qed.

Lemma in_all_byte_strings bs : In bs (all_byte_strings (length bs)).
Proof.
  induction bs as [|b bs IH]; [by left|]. cbn [length all_byte_strings].
  apply in_flat_map. exists b. split; [apply in_all_bytes|].
  apply in_map_iff. by exists bs.
Qed.

(** There are no more keys than byte strings of that length. *)
Lemma drawn_keys_size len (hm : gmap string (list Z)) :
  drawn_keys len hm → Z.of_nat (size hm) <= 256 ^ Z.of_nat len.
Proof.
  intros Hkeys. rewrite <- all_byte_strings_length.
  rewrite <- (length_map_to_list hm), <- (length_fmap fst).
  rewrite <- (length_map bytes_hex (all_byte_strings len)).
  apply Nat2Z.inj_le, NoDup_incl_length;
    [apply NoDup_ListNoDup, NoDup_fst_map_to_list|].
  intros h Hin. apply list_elem_of_In in Hin.
  apply list_elem_of_fmap in Hin as [[k p] [-> Hkp]].
  apply elem_of_map_to_list in Hkp.
  destruct (Hkeys k) as (bs & <- & ->); [by exists p|].
  cbn [fst]. apply in_map, in_all_byte_strings.
Qed.

Lemma drawn_keys_empty len : drawn_keys len ∅.
Proof. intros h [p Hp]. by rewrite lookup_empty in Hp. Qed.

Lemma drawn_keys_insert len (hm : gmap string (list Z)) rng p :
  drawn_keys len hm → drawn_keys len (<[(random_hex len rng).1 := p]> hm).
Proof.
  intros Hkeys h [q Hq]. rewrite lookup_insert in Hq. case_decide as Hh.
  - exists (rng_bytes len rng).1. split; [apply rng_bytes_length | by subst h].
  - apply Hkeys. by exists q.
Qed.

Lemma sample_loop_never_returns fuel : ∀ config n_samples hm rng out,
  drawn_keys (bytes_needed config) hm →
  256 ^ Z.of_nat (bytes_needed config) < n_samples →
  sample_loop fuel config n_samples hm rng ≠ Some (Ok out).
Proof.
  induction fuel as [|fuel IH]; intros config n hm rng out Hkeys Hn; [done|].
  cbn [sample_loop]. pose proof (drawn_keys_size _ hm Hkeys) as Hsize.
  destruct (Z.ltb_spec (Z.of_nat (size hm)) n); [|lia].
  destruct (random_hex (bytes_needed config) rng) as [hex rng'] eqn:Hdraw.
  destruct (hm !! hex); [by apply IH|].
  destruct (hex_to_program _ _ _ _) as [program|e]; [|done].
  apply IH; [|done].
  replace hex with (random_hex (bytes_needed config) rng).1 by (by rewrite Hdraw).
  by apply drawn_keys_insert.
Qed.

(** A drawn identifier is always decoded when the alphabet is made of
    character codes and at least one byte is drawn. *)
Lemma decode_drawn len rng L range min :
  (0 < len)%nat → 1 <= range → 0 <= min → min + range - 1 <= 1114111 →
  ∃ program, hex_to_program (random_hex len rng).1 L range min = Ok program.
Proof.
  intros Hlen Hr Hmin Hmax. unfold hex_to_program.
  rewrite random_hex_drawn, int16_bytes_hex.
  - run_step. eexists. apply (loop_digits range min); lia.
  - pose proof (rng_bytes_length len rng) as Hl.
    destruct (rng_bytes len rng).1; [cbn in Hl; lia | done].
Qed.

Lemma sample_loop_runs_forever fuel : ∀ config n_samples hm rng,
  drawn_keys (bytes_needed config) hm →
  256 ^ Z.of_nat (bytes_needed config) < n_samples →
  (0 < bytes_needed config)%nat → 1 <= ascii_range config →
  0 <= ascii_min config → ascii_max config <= 1114111 →
  sample_loop fuel config n_samples hm rng = None.
Proof.
  induction fuel as [|fuel IH]; intros config n hm rng Hkeys Hn Hb Hr Hmin Hmax; [done|].
  cbn [sample_loop]. pose proof (drawn_keys_size _ hm Hkeys) as Hsize.
  destruct (Z.ltb_spec (Z.of_nat (size hm)) n); [|lia].
  destruct (decode_drawn (bytes_needed config) rng (program_length config)
              (ascii_range config) (ascii_min config)) as [program Hdec];
    [done | done | done | unfold ascii_range in *; lia |].
  destruct (random_hex (bytes_needed config) rng) as [hex rng'] eqn:Hdraw.
  cbn [fst] in Hdec. rewrite Hdec.
  destruct (hm !! hex); [by apply IH|].
  apply IH; try done.
  replace hex with (random_hex (bytes_needed config) rng).1 by (by rewrite Hdraw).
  by apply drawn_keys_insert.
Qed.

Lemma sample_loop_returns fuel : ∀ config n_samples hm rng hm' rng',
  sample_loop fuel config n_samples hm rng = Some (Ok (hm', rng')) →
  drawn_keys (bytes_needed config) hm → decoded_map config hm →
  Z.of_nat (size hm) <= Z.max 0 n_samples →
  drawn_keys (bytes_needed config) hm' ∧ decoded_map config hm' ∧
  Z.of_nat (size hm') = Z.max 0 n_samples.
Proof.
  induction fuel as [|fuel IH]; intros config n hm rng hm' rng' Hrun Hkeys Hdec Hsize;
    [done|].
  cbn [sample_loop] in Hrun.
  destruct (Z.ltb_spec (Z.of_nat (size hm)) n) as [Hlt|Hge].
  - destruct (random_hex (bytes_needed config) rng) as [hex rng1] eqn:Hdraw.
    destruct (hm !! hex) as [q|] eqn:Hlook; [by eapply IH|].
    destruct (hex_to_program _ _ _ _) as [program|e] eqn:Hprog; [|done].
    eapply IH; [exact Hrun| | |].
    + replace hex with (random_hex (bytes_needed config) rng).1 by (by rewrite Hdraw).
      by apply drawn_keys_insert.
    + intros h p. rewrite lookup_insert. case_decide as Hh.
      * intros [= <-]. by subst h.
      * apply Hdec.
    + rewrite map_size_insert_None by done. lia.
  - inversion Hrun; subst hm' rng'. repeat split; [done | done | lia].
Qed.

(** C5, as the code has it.  The sampling phase compares [n_samples] with
    nothing but the number of hex strings drawn so far.  When it returns,
    its map holds exactly [max(n_samples, 0)] distinct hex strings of
    [bytes_needed] drawn bytes, each with its decoding.  When [n_samples]
    exceeds the number of such strings, [256^bytes_needed], it never
    returns, whatever the generator and however long it runs; and when
    moreover the alphabet is made of character codes and at least one byte
    is drawn per identifier, it raises nothing either: the loop is still
    running after any number of iterations. *)
Theorem sampling_ends_only_with_enough_draws
    (config : GeneratorConfig) (n_samples : Z) (rng : Generator) :
  (∀ fuel hm rng',
     sample_phase fuel config n_samples rng = Some (Ok (hm, rng')) →
     Z.of_nat (size hm) = Z.max 0 n_samples ∧
     drawn_keys (bytes_needed config) hm ∧ decoded_map config hm) ∧
  (256 ^ Z.of_nat (bytes_needed config) < n_samples →
   (∀ fuel out, sample_phase fuel config n_samples rng ≠ Some (Ok out)) ∧
   ((0 < bytes_needed config)%nat → 1 <= ascii_range config →
    0 <= ascii_min config → ascii_max config <= 1114111 →
    ∀ fuel, sample_phase fuel config n_samples rng = None)).
Proof.
  split; [|intros Hn; split].
  - intros fuel hm rng' Hrun.
    apply sample_loop_returns in Hrun as (Hkeys & Hdec & Hsize).
    + done.
    + apply drawn_keys_empty.
    + intros h p Hp. by rewrite lookup_empty in Hp.
    + rewrite map_size_empty. lia.
  - intros fuel out. apply sample_loop_never_returns; [apply drawn_keys_empty | done].
  - intros Hb Hr Hmin Hmax fuel.
    apply sample_loop_runs_forever; try done. apply drawn_keys_empty.
Qed.

Lemma sampling_ends_only_with_enough_draws_witness :
  sample_phase 1000 tiny_config 257 (generator_of [x00; x01; x02]) = None ∧
  (∃ hm rng',
     sample_phase 4 tiny_config 3 (generator_of [x00; x01; x02]) = Some (Ok (hm, rng')) ∧
     size hm = 3%nat).
Proof.
  split.
  - destruct (sampling_ends_only_with_enough_draws tiny_config 257
                (generator_of [x00; x01; x02])) as [_ Hbeyond].
    destruct Hbeyond as [_ Hforever]; [reflexivity|].
    apply Hforever; unfold ascii_range, tiny_config; cbn; lia.
  - assert (sample_phase 4 tiny_config 3 (generator_of [x00; x01; x02]) =
            Some (Ok ({[ "00" := [32]; "01" := [33]; "02" := [32] ]},
                      {| tape := tape (generator_of [x00; x01; x02]); cursor := 3 |})))
      as Hrun by (vm_compute; reflexivity).
    destruct (sampling_ends_only_with_enough_draws tiny_config 3
                (generator_of [x00; x01; x02])) as [Hreturn _].
    destruct (Hreturn _ _ _ Hrun) as [Hsize _].
    eexists _, _. split; [exact Hrun | lia].
Defined.

(** C5, as stated, fails: with two characters and one position there are
    [2^1 = 2] identifiers, three samples are requested, and the phase
    returns three sampled identifiers without raising. *)
Lemma sampling_beyond_the_space_returns :
  ascii_range tiny_config ^ program_length tiny_config < 3 ∧
  sample_phase 4 tiny_config 3 (generator_of [x00; x01; x02]) =
  Some (Ok ({[ "00" := [32]; "01" := [33]; "02" := [32] ]},
            {| tape := tape (generator_of [x00; x01; x02]); cursor := 3 |})).
Proof. split; [reflexivity|]. vm_compute. reflexivity. Qed.

(** ** Further properties of the decoders *)

Lemma chr_Ok_inv i c : chr i = Ok c → c = i ∧ is_code_point i.
Proof.
  unfold is_code_point, chr.
  destruct (Z.leb_spec 0 i); destruct (Z.ltb_spec i 1114112); cbn; intros Heq;
    inversion Heq; lia.
Qed.

(** What the decoding loop returns, when it returns. *)
Lemma loop_Ok_inv r m k : ∀ n acc p,
  1 <= r →
  hex_to_program_loop k n r m acc = Ok p →
  p = acc ++ map (Z.add m) (digits k n r) ∧
  Forall is_code_point (map (Z.add m) (digits k n r)).
Proof.
  induction k as [|k IH]; intros n acc p Hr Hrun.
  - cbn in *. inversion Hrun. by rewrite app_nil_r.
  - cbn [hex_to_program_loop] in Hrun. revert Hrun. run_step.
    destruct (chr (m + n mod r)) as [c|e] eqn:Hc; [|done]. run_step. intros Hrun.
    apply chr_Ok_inv in Hc as [-> Hcp].
    destruct (IH _ _ _ Hr Hrun) as [-> Hrest].
    cbn [digits map]. split; [by rewrite <- app_assoc | by constructor].
Qed.

(** The accumulated program is only ever extended. *)
Lemma loop_acc r m k : ∀ n a b,
  hex_to_program_loop k n r m (a ++ b) =
  (p ← hex_to_program_loop k n r m b; Ok (a ++ p)).
Proof.
  induction k as [|k IH]; intros n a b; [reflexivity|].
  cbn [hex_to_program_loop].
  destruct (py_mod n r) as [d|e]; [|reflexivity]. run_step.
  destruct (py_floordiv n r) as [q|e]; [|reflexivity]. run_step.
  destruct (chr (m + d)) as [c|e]; [|reflexivity]. run_step.
  by rewrite <- app_assoc, IH.
Qed.

Lemma loop_split r m k1 : ∀ k2 n acc,
  1 <= r →
  hex_to_program_loop (k1 + k2) n r m acc =
  (p1 ← hex_to_program_loop k1 n r m acc;
   hex_to_program_loop k2 (n / r ^ Z.of_nat k1) r m p1).
Proof.
  induction k1 as [|k1 IH]; intros k2 n acc Hr.
  - cbn. by rewrite Z.div_1_r.
  - cbn [Nat.add hex_to_program_loop]. run_step.
    destruct (chr (m + n mod r)) as [c|e]; [|reflexivity]. run_step.
    rewrite IH by done. pose proof (pow_pos_nat r k1 Hr).
    by rewrite pow_succ_nat, Z.div_div by lia.
Qed.

(** X1. Whatever integer the hex string denotes (negative, or beyond
    [range^L - 1]), a program returned by the decoder for a [range >= 1]
    has exactly [max(L, 0)] characters, all of them in
    [min, min+range-1] and all of them code points. *)
Theorem decoded_program_shape (h : string) (L range min : Z) (p : list Z) :
  1 <= range →
  hex_to_program h L range min = Ok p →
  Z.of_nat (length p) = Z.max 0 L ∧ in_alphabet min range p ∧
  Forall is_code_point p.
Proof.
  intros Hr. unfold hex_to_program.
  destruct (int16 h) as [n|e]; [|done]. run_step. intros Hrun.
  apply loop_Ok_inv in Hrun as [-> Hcp]; [|done]. cbn [app].
  repeat split.
  - rewrite length_map, length_digits. lia.
  - by apply digits_in_alphabet.
  - done.
Qed.

Lemma decoded_program_shape_witness :
  Z.of_nat (length [126; 126; 126]) = Z.max 0 3 ∧ in_alphabet 32 95 [126; 126; 126] ∧
  Forall is_code_point [126; 126; 126].
Proof.
  apply (decoded_program_shape "-0x1" 3 95 32); [lia | reflexivity].
Defined.

(** X2. The two decoders return the same result for every [range >= 0],
    the bases 0 and 1 included: with [range = 0] and a length of at least
    one both raise ZeroDivisionError.  Below zero they part: for the
    identifier 3, three positions and the base -2 the results differ. *)
Theorem decoders_agree_from_zero :
  (∀ (h : string) (L range min : Z),
     0 <= range →
     hex_to_program h L range min = hex_to_program_slow h L range min) ∧
  (∀ (h : string) (n L min : Z),
     int16 h = Ok n → 1 <= L →
     hex_to_program h L 0 min = Raise ZeroDivisionError) ∧
  hex_to_program "3" 3 (-2) 50 ≠ hex_to_program_slow "3" 3 (-2) 50.
Proof.
  assert (∀ (h : string) (n L min : Z),
     int16 h = Ok n → 1 <= L →
     hex_to_program h L 0 min = Raise ZeroDivisionError ∧
     hex_to_program_slow h L 0 min = Raise ZeroDivisionError) as Hzero.
  { intros h n L min Hn HL. unfold hex_to_program, hex_to_program_slow.
    rewrite Hn. run_step. destruct (Z.to_nat L) as [|k] eqn:Hk; [lia|].
    split; reflexivity. }
  split; [|split].
  - intros h L range min Hr.
    destruct (Z.eq_dec range 0) as [->|Hne].
    + destruct (int16 h) as [n|e] eqn:Hn.
      * destruct (Z.le_gt_cases 1 L) as [HL|HL].
        -- destruct (Hzero h n L min Hn HL) as [-> ->]. reflexivity.
        -- unfold hex_to_program, hex_to_program_slow. rewrite Hn. run_step.
           replace (Z.to_nat L) with 0%nat by lia. reflexivity.
      * unfold hex_to_program, hex_to_program_slow. by rewrite Hn.
    + unfold hex_to_program, hex_to_program_slow.
      destruct (int16 h) as [n|e]; [|reflexivity]. run_step.
      rewrite <- (loops_agree range min) by lia.
      cbn [Z.of_nat Z.pow]. by rewrite Z.div_1_r.
  - intros h n L min Hn HL. by destruct (Hzero h n L min Hn HL).
  - vm_compute. discriminate.
Qed.

Lemma decoders_agree_from_zero_witness :
  hex_to_program "0x0e13" 5 1 32 = hex_to_program_slow "0x0e13" 5 1 32 ∧
  hex_to_program "0x0e13" 5 0 32 = Raise ZeroDivisionError.
Proof.
  destruct decoders_agree_from_zero as (Hagree & Hzero & _). split.
  - apply Hagree. lia.
  - apply (Hzero "0x0e13" 3603 5 32); [reflexivity | lia].
Defined.

(** X3. Decoding to [L1 + L2] characters is decoding to [L1] characters,
    followed by decoding the quotient of the identifier by [range^L1] to
    [L2] characters: a shorter decoding is a prefix of a longer one, and an
    exception of the first part is the exception of the whole. *)
Theorem decode_splits (h : string) (n L1 L2 range min : Z) :
  1 <= range → 0 <= L1 → 0 <= L2 →
  int16 h = Ok n →
  hex_to_program h (L1 + L2) range min =
  (p1 ← hex_to_program h L1 range min;
   p2 ← hex_to_program (hex (n / range ^ L1)) L2 range min;
   Ok (p1 ++ p2)).
Proof.
  intros Hr H1 H2 Hn. unfold hex_to_program. rewrite Hn, int16_hex. run_step.
  rewrite Z2Nat.inj_add, loop_split, Z2Nat.id by done.
  destruct (hex_to_program_loop (Z.to_nat L1) n range min []) as [p1|e];
    [|reflexivity].
  run_step. rewrite <- (app_nil_r p1) at 1. apply loop_acc.
Qed.

Lemma decode_splits_witness :
  hex_to_program "0x0e13" 3 95 32 =
  (p1 ← hex_to_program "0x0e13" 1 95 32;
   p2 ← hex_to_program (hex (3603 / 95 ^ 1)) 2 95 32;
   Ok (p1 ++ p2)).
Proof.
  apply (decode_splits "0x0e13" 3603 1 2 95 32); [lia | lia | lia | reflexivity].
Defined.

(** X4. Decoding and encoding again reduces the identifier modulo
    [range^L]: when the decoder returns a program for a hex string that
    denotes [n], whatever [n] is, the encoder maps that program to the
    [hex] of [n mod range^L], which parses back to that integer. *)
Theorem reencoding_reduces_the_identifier
    (h : string) (n L range min : Z) (p : list Z) :
  1 <= range → 0 <= L →
  int16 h = Ok n →
  hex_to_program h L range min = Ok p →
  program_to_hex p min range = hex (n mod range ^ L) ∧
  int16 (program_to_hex p min range) = Ok (n mod range ^ L).
Proof.
  intros Hr HL Hn. unfold hex_to_program. rewrite Hn. run_step. intros Hrun.
  apply loop_Ok_inv in Hrun as [-> _]; [|done]. cbn [app].
  assert (program_to_hex (map (Z.add min) (digits (Z.to_nat L) n range)) min range =
          hex (n mod range ^ L)) as ->.
  { unfold program_to_hex.
    by rewrite program_to_hex_number_horner, horner_digits, Z2Nat.id. }
  split; [done | apply int16_hex].
Qed.

Lemma reencoding_reduces_the_identifier_witness :
  program_to_hex [126; 126; 126] 32 95 = hex (-1 mod 95 ^ 3).
Proof.
  apply (reencoding_reduces_the_identifier "-0x1" (-1) 3 95 32 [126; 126; 126]);
    [lia | lia | reflexivity | reflexivity].
Defined.

(** ** Further properties of the encoders *)

Lemma horner_app r m p : ∀ q,
  horner (p ++ q) m r = horner p m r + r ^ Z.of_nat (length p) * horner q m r.
Proof.
  induction p as [|c p IH]; intros q.
  - cbn [app horner length Z.of_nat]. rewrite Z.pow_0_r. lia.
  - cbn [app horner length]. rewrite IH, pow_succ_nat. lia.
Qed.

Lemma horner_repeat_min r m k : horner (repeat m k) m r = 0.
Proof. induction k as [|k IH]; cbn [repeat horner]; [done | rewrite IH; lia]. Qed.

(** X5. The number encoded for a concatenation is the number of the first
    part plus [range^len(first)] times the number of the second, for every
    program and every base; so the minimum character appended any number
    of times leaves the identifier unchanged: the encoder does not record
    the length. *)
Theorem encoding_of_concatenation (p q : list Z) (min range : Z) :
  program_to_hex_number (p ++ q) min range =
  program_to_hex_number p min range +
  range ^ Z.of_nat (length p) * program_to_hex_number q min range ∧
  ∀ k : nat, program_to_hex (p ++ repeat min k) min range = program_to_hex p min range.
Proof.
  rewrite !program_to_hex_number_horner. split; [apply horner_app|].
  intros k. unfold program_to_hex. rewrite !program_to_hex_number_horner.
  rewrite horner_app, horner_repeat_min. f_equal. lia.
Qed.

(** The positional-power loop, cut at a character outside the bounds. *)
Lemma program_to_hex_slow_loop_stops pre : ∀ c post position min max range acc,
  Forall (λ x, min <= x <= max) pre →
  c < min ∨ max < c →
  program_to_hex_slow_loop (pre ++ c :: post) position min max range acc =
  Raise (NotReadableAscii c (position + Z.of_nat (length pre))).
Proof.
  induction pre as [|x pre IH]; intros c post position min max range acc Hpre Hc.
  - cbn [app program_to_hex_slow_loop length]. unfold ord.
    replace ((c <? min) || (c >? max)) with true.
    + do 2 f_equal. cbn. lia.
    + symmetry. apply orb_true_iff. rewrite Z.ltb_lt, Z.gtb_lt. lia.
  - apply Forall_cons in Hpre as [Hx Hpre].
    cbn [app program_to_hex_slow_loop length]. unfold ord.
    destruct (Z.ltb_spec x min); [lia|]. destruct (Z.gtb_spec x max); [lia|].
    cbn [orb]. rewrite IH by done. do 2 f_equal. lia.
Qed.

Lemma program_to_hex_slow_loop_passes program : ∀ position min max range acc,
  0 <= position →
  Forall (λ x, min <= x <= max) program →
  program_to_hex_slow_loop program position min max range acc =
  Ok (acc + range ^ position * horner program min range).
Proof.
  induction program as [|c t IH]; intros position min max range acc Hpos Hin.
  - cbn. f_equal. lia.
  - apply Forall_cons in Hin as [Hc Ht].
    cbn [program_to_hex_slow_loop horner]. unfold ord.
    destruct (Z.ltb_spec c min); [lia|]. destruct (Z.gtb_spec c max); [lia|].
    cbn [orb]. rewrite IH by (done || lia). f_equal.
    rewrite Z.pow_add_r by lia. lia.
Qed.

(** X6. The positional-power encoder checks the characters against
    [ascii_min] and [ascii_max] only, whatever [ascii_range] is: when all
    of them are within the bounds it returns the string of the production
    encoder, and otherwise it raises the error that carries the first
    character outside the bounds and its index. *)
Theorem program_to_hex_slow_checks_bounds (min max range : Z) :
  (∀ p : list Z,
     Forall (λ x, min <= x <= max) p →
     program_to_hex_slow p min max range = Ok (program_to_hex p min range)) ∧
  (∀ (pre post : list Z) (c : Z),
     Forall (λ x, min <= x <= max) pre →
     c < min ∨ max < c →
     program_to_hex_slow (pre ++ c :: post) min max range =
     Raise (NotReadableAscii c (Z.of_nat (length pre)))).
Proof.
  split.
  - intros p Hp. unfold program_to_hex_slow, program_to_hex.
    rewrite program_to_hex_slow_loop_passes by (done || lia). run_step.
    rewrite program_to_hex_number_horner. cbn. do 2 f_equal. lia.
  - intros pre post c Hpre Hc. unfold program_to_hex_slow.
    by rewrite program_to_hex_slow_loop_stops.
Qed.

Lemma program_to_hex_slow_checks_bounds_witness :
  program_to_hex_slow [120; 69; 32] 32 126 7 = Ok (program_to_hex [120; 69; 32] 32 7) ∧
  program_to_hex_slow [120; 10; 9] 32 126 95 = Raise (NotReadableAscii 10 1).
Proof.
  destruct (program_to_hex_slow_checks_bounds 32 126 7) as [Hpass _].
  destruct (program_to_hex_slow_checks_bounds 32 126 95) as [_ Hstop].
  split.
  - apply Hpass. repeat constructor; lia.
  - apply (Hstop [120] [9] 10); [repeat constructor; lia | lia].
Defined.

(** ** The layout in lines *)

Lemma format_program_loop_map program line_length line_nums : ∀ lines,
  format_program_loop line_nums program line_length lines =
  lines ++ map (λ i, py_slice program (Z.of_nat i * line_length)
                       (Z.of_nat i * line_length + line_length)) line_nums.
Proof.
  induction line_nums as [|i line_nums IH]; intros lines; cbn [format_program_loop map].
  - by rewrite app_nil_r.
  - by rewrite IH, <- app_assoc.
Qed.

(** A slice between two non-negative bounds in order. *)
Lemma py_slice_nonneg (s : list Z) (start stop : Z) :
  0 <= start <= stop →
  py_slice s start stop = take (Z.to_nat (stop - start)) (drop (Z.to_nat start) s).
Proof.
  intros Hb. unfold py_slice.
  destruct (Z.ltb_spec start 0); [lia|]. destruct (Z.ltb_spec stop 0); [lia|].
  destruct (Z.le_gt_cases (Z.of_nat (length s)) start) as [Hout|Hin].
  - rewrite !drop_ge by lia. by rewrite !take_nil.
  - rewrite (Z.min_l start) by lia.
    destruct (Z.le_gt_cases stop (Z.of_nat (length s))) as [Hs|Hs].
    + by rewrite Z.min_l by lia.
    + rewrite Z.min_r by lia. rewrite !take_ge; [done | |]; rewrite length_drop; lia.
Qed.

Lemma format_lines_chunks program total_lines line_length :
  0 <= line_length →
  format_lines program total_lines line_length =
  map (λ i, take (Z.to_nat line_length) (drop (i * Z.to_nat line_length) program))
      (seq 0 (Z.to_nat total_lines)).
Proof.
  intros Hw. unfold format_lines. rewrite format_program_loop_map. cbn [app].
  apply map_ext. intros i. rewrite py_slice_nonneg by nia.
  f_equal; [f_equal; lia | f_equal; nia].
Qed.

Lemma concat_chunks (w : nat) (s : list Z) (t : nat) :
  concat (map (λ i, take w (drop (i * w) s)) (seq 0 t)) = take (t * w) s.
Proof.
  induction t as [|t IH]; [done|].
  rewrite seq_S, map_app, concat_app, IH. cbn [map concat Nat.add].
  rewrite app_nil_r, take_take_drop. f_equal. lia.
Qed.

Lemma py_join_length (c : Z) (parts : list (list Z)) :
  parts ≠ [] →
  length (py_join [c] parts) = (length (concat parts) + length parts - 1)%nat.
Proof.
  induction parts as [|p parts IH]; [done|]. intros _.
  destruct parts as [|q parts].
  - cbn. rewrite app_nil_r. lia.
  - change (py_join [c] (p :: q :: parts))
      with (p ++ [c] ++ py_join [c] (q :: parts)).
    rewrite !length_app, IH by done. cbn [concat length].
    rewrite !length_app. lia.
Qed.

Lemma py_join_filter (c : Z) (parts : list (list Z)) :
  List.filter (λ x, negb (x =? c)) (py_join [c] parts) =
  List.filter (λ x, negb (x =? c)) (concat parts).
Proof.
  induction parts as [|p parts IH]; [done|].
  destruct parts as [|q parts].
  - cbn. by rewrite app_nil_r.
  - change (py_join [c] (p :: q :: parts))
      with (p ++ [c] ++ py_join [c] (q :: parts)).
    change (concat (p :: q :: parts)) with (p ++ concat (q :: parts)).
    rewrite !List.filter_app, IH. cbn [List.filter].
    by rewrite Z.eqb_refl.
Qed.

Lemma filter_all (c : Z) (s : list Z) :
  Forall (λ x, x ≠ c) s → List.filter (λ x, negb (x =? c)) s = s.
Proof.
  induction s as [|x s IH]; [done|]. intros [Hx Hs]%Forall_cons.
  cbn [List.filter]. destruct (Z.eqb_spec x c); [done|]. cbn. by rewrite IH.
Qed.

(** X7. For a line length [>= 0], the lines of [format_program] are
    consecutive pieces of the program: put end to end they are its first
    [total_lines * line_length] characters, so a longer program is cut and
    a shorter one gives short or empty lines, and nothing is raised.  The
    formatted text has one separator between two lines and none at the
    end; deleting the line feeds of the formatted text of a program
    without line feeds gives those first characters back. *)
Theorem format_program_cuts_lines (program : list Z) (total_lines line_length : Z) :
  0 <= line_length →
  concat (format_lines program total_lines line_length) =
  take (Z.to_nat (total_lines * line_length)) program ∧
  (1 <= total_lines →
   Z.of_nat (length (format_program program total_lines line_length)) =
   Z.of_nat (length (take (Z.to_nat (total_lines * line_length)) program)) +
   total_lines - 1) ∧
  (Forall (λ c, c ≠ 10) program →
   List.filter (λ c, negb (c =? 10)) (format_program program total_lines line_length) =
   take (Z.to_nat (total_lines * line_length)) program).
Proof.
  intros Hw.
  assert (concat (format_lines program total_lines line_length) =
          take (Z.to_nat (total_lines * line_length)) program) as Hcat.
  { rewrite format_lines_chunks, concat_chunks by done. f_equal.
    destruct (Z.le_gt_cases 0 total_lines).
    - rewrite Z2Nat.inj_mul by lia. done.
    - replace (Z.to_nat total_lines) with 0%nat by lia.
      replace (Z.to_nat (total_lines * line_length)) with 0%nat by nia. done. }
  split; [done|]. split.
  - intros Ht. unfold format_program. rewrite py_join_length, Hcat.
    + rewrite format_lines_chunks, length_map, length_seq by done. lia.
    + rewrite format_lines_chunks by done.
      destruct (Z.to_nat total_lines) eqn:Hn; [lia | done].
  - intros Hnl. unfold format_program. rewrite py_join_filter, Hcat.
    apply filter_all. by apply Forall_take.
Qed.

Lemma format_program_cuts_lines_witness :
  format_program [97; 98; 99; 100; 101] 2 2 = [97; 98; 10; 99; 100] ∧
  concat (format_lines [97; 98; 99; 100; 101] 2 2) = [97; 98; 99; 100].
Proof.
  destruct (format_program_cuts_lines [97; 98; 99; 100; 101] 2 2) as [Hcat _]; [lia|].
  split; [reflexivity | exact Hcat].
Defined.

(** X8. When the program has exactly [total_lines * line_length]
    characters, as a decoded program has, [format_program] makes
    [total_lines] lines of exactly [line_length] characters each, which put
    end to end are the whole program. *)
Theorem format_program_full_lines (program : list Z) (total_lines line_length : Z) :
  0 <= line_length → 0 <= total_lines →
  Z.of_nat (length program) = total_lines * line_length →
  Z.of_nat (length (format_lines program total_lines line_length)) = total_lines ∧
  Forall (λ line, Z.of_nat (length line) = line_length)
    (format_lines program total_lines line_length) ∧
  concat (format_lines program total_lines line_length) = program.
Proof.
  intros Hw Ht Hlen. rewrite format_lines_chunks by done. repeat split.
  - rewrite length_map, length_seq. lia.
  - apply Forall_map, Forall_forall. intros i Hi%elem_of_seq. cbn.
    rewrite length_take, length_drop. nia.
  - rewrite concat_chunks. apply take_ge. nia.
Qed.

Lemma format_program_full_lines_witness :
  Forall (λ line, Z.of_nat (length line) = 2) (format_lines [97; 98; 99; 100] 2 2) ∧
  concat (format_lines [97; 98; 99; 100] 2 2) = [97; 98; 99; 100].
Proof.
  destruct (format_program_full_lines [97; 98; 99; 100] 2 2) as (_ & Hlines & Hcat);
    [lia | lia | reflexivity |].
  split; [exact Hlines | exact Hcat].
Defined.

(** ** Further properties of the sampling *)

Lemma bytes_fold bs : ∀ acc,
  fold_left (λ a b, a * 256 + byte_value b) bs acc =
  acc * 256 ^ Z.of_nat (length bs) + bytes_value bs.
Proof.
  unfold bytes_value.
  induction bs as [|b bs IH]; intros acc; [cbn; lia|].
  cbn [fold_left length]. rewrite IH, (IH (0 * 256 + byte_value b)), pow_succ_nat. lia.
Qed.

Lemma bytes_value_bound bs : 0 <= bytes_value bs < 256 ^ Z.of_nat (length bs).
Proof.
  induction bs as [|b bs IH]; [cbn; lia|].
  unfold bytes_value. cbn [fold_left length]. rewrite bytes_fold, pow_succ_nat.
  pose proof (byte_value_bound b). nia.
Qed.

(** Byte strings of one length with the same integer are the same. *)
Lemma bytes_value_inj bs : ∀ bs',
  length bs = length bs' → bytes_value bs = bytes_value bs' → bs = bs'.
Proof.
  induction bs as [|b bs IH]; intros [|b' bs'] Hlen Hval; try done.
  cbn [length] in Hlen. injection Hlen as Hlen.
  unfold bytes_value in Hval. cbn [fold_left] in Hval.
  rewrite !bytes_fold, Hlen in Hval.
  pose proof (bytes_value_bound bs) as Hb. rewrite Hlen in Hb.
  pose proof (bytes_value_bound bs') as Hb'.
  pose proof (byte_value_bound b). pose proof (byte_value_bound b').
  assert (byte_value b = byte_value b') as Hhead by nia.
  f_equal.
  - by rewrite <- (byte_of_value b), <- (byte_of_value b'), Hhead.
  - apply IH; [done | nia].
Qed.



(** X10. The identifiers of a returned sample are pairwise distinct as
    integers, not only as strings: two different keys of the map parse to
    two different integers. *)
Theorem sampled_identifiers_differ_as_integers
    (fuel : nat) (config : GeneratorConfig) (n_samples : Z) (rng rng' : Generator)
    (hm : gmap string (list Z)) (h h' : string) :
  sample_phase fuel config n_samples rng = Some (Ok (hm, rng')) →
  is_Some (hm !! h) → is_Some (hm !! h') → h ≠ h' →
  ∃ i i', int16 h = Ok i ∧ int16 h' = Ok i' ∧ i ≠ i'.
Proof.
  intros Hrun Hh Hh' Hne.
  apply sample_loop_returns in Hrun as (Hkeys & _ & _);
    [|apply drawn_keys_empty
     |intros k q Hq; by rewrite lookup_empty in Hq
     |rewrite map_size_empty; lia].
  destruct (Hkeys h Hh) as (bs & Hlen & ->).
  destruct (Hkeys h' Hh') as (bs' & Hlen' & ->).
  assert (bs ≠ []) as Hbs.
  { intros ->. destruct bs'; [done|]. cbn in Hlen'. rewrite <- Hlen in Hlen'. done. }
  assert (bs' ≠ []) as Hbs'.
  { intros ->. destruct bs; [done|]. cbn in Hlen'. rewrite <- Hlen in Hlen'. done. }
  exists (bytes_value bs), (bytes_value bs').
  rewrite !int16_bytes_hex by done. repeat split.
  intros Hval. apply Hne. f_equal. apply bytes_value_inj; [congruence | done].
Qed.

Lemma sampled_identifiers_differ_as_integers_witness :
  ∃ i i', int16 "00" = Ok i ∧ int16 "02" = Ok i' ∧ i ≠ i'.
Proof.
  apply (sampled_identifiers_differ_as_integers 4 tiny_config 3
           (generator_of [x00; x01; x02])
           {| tape := tape (generator_of [x00; x01; x02]); cursor := 3 |}
           {[ "00" := [32]; "01" := [33]; "02" := [32] ]}).
  - vm_compute. reflexivity.
  - by eexists.
  - by eexists.
  - discriminate.
Defined.




(** ** The whole experiment *)

Lemma keep_successful_lookup (results : list (string * ExecutionResult)) h r :
  keep_successful results !! h = Some r → (h, r) ∈ results ∧ success r = true.
Proof.
  unfold keep_successful. revert h r.
  assert (∀ (out : gmap string ExecutionResult) h r,
            fold_left (λ out '(hex, result),
                         if success result then <[hex := result]> out else out)
              results out !! h = Some r →
            out !! h = Some r ∨ ((h, r) ∈ results ∧ success r = true)) as Hgen.
  { induction results as [|[k v] results IH]; intros out h r; cbn [fold_left].
    - by left.
    - intros [Hout|[Hin Hs]]%IH.
      + destruct (success v) eqn:Hv; [|by left].
        rewrite lookup_insert in Hout. case_decide as Hk; [|by left].
        right. injection Hout as <-. subst k. split; [by left | done].
      + right. split; [by right | done]. }
  intros h r [Hout|Hin]%Hgen; [by rewrite lookup_empty in Hout | done].
Qed.

(** X12. What [Experiment.run] returns: at most [max(n_samples, 0)]
    results, each of them a success, and each under a key that was
    sampled, that is the hex string of [bytes_needed] drawn bytes, which
    the decoder accepts. *)
Theorem experiment_returns_successful_samples {World : Type}
    (runner_run : list Z → World → ExecutionResult * World)
    (fuel : nat) (config : GeneratorConfig) (n_samples : Z)
    (rng rng' : Generator) (w w' : World) (out : gmap string ExecutionResult) :
  Experiment_run runner_run fuel config n_samples rng w = Some (Ok (out, rng', w')) →
  Z.of_nat (size out) <= Z.max 0 n_samples ∧
  ∀ h r, out !! h = Some r →
    success r = true ∧
    (∃ bs, length bs = bytes_needed config ∧ h = bytes_hex bs) ∧
    (∃ p, hex_to_program h (program_length config) (ascii_range config)
            (ascii_min config) = Ok p).
Proof.
  unfold Experiment_run.
  destruct (sample_phase fuel config n_samples rng) as [[[hm rng1]|e]|] eqn:Hsample;
    [|done|done].
  unfold run_batch.
  destruct (dispatch runner_run (map_to_list hm) w) as [results w1] eqn:Hdispatch.
  intros [= <- <- <-].
  apply sample_loop_returns in Hsample as (Hkeys & Hdec & Hsize);
    [|apply drawn_keys_empty
     |intros k q Hq; by rewrite lookup_empty in Hq
     |rewrite map_size_empty; lia].
  assert (∀ h r, keep_successful results !! h = Some r →
                 success r = true ∧ is_Some (hm !! h)) as Hout.
  { intros h r [Hin Hs]%keep_successful_lookup. split; [done|].
    assert (h ∈ results.*1) as Hkey.
    { apply list_elem_of_fmap. by exists (h, r). }
    replace results with (dispatch runner_run (map_to_list hm) w).1 in Hkey
      by (by rewrite Hdispatch).
    rewrite dispatch_identifiers in Hkey.
    apply list_elem_of_fmap in Hkey as [[k p] [-> Hkp]].
    apply elem_of_map_to_list in Hkp. by exists p. }
  split.
  - rewrite <- Hsize. apply Nat2Z.inj_le.
    rewrite <- !size_dom. apply subseteq_size.
    intros h [r Hr]%elem_of_dom. apply elem_of_dom. by destruct (Hout h r Hr).
  - intros h r Hr. destruct (Hout h r Hr) as [Hs [p Hp]].
    split; [done|]. split; [apply Hkeys; by exists p | exists p; by apply Hdec].
Qed.

Lemma experiment_returns_successful_samples_witness :
  let runner_run := λ (program : list Z) (w : nat),
        ({| returncode := Z.of_nat w; stdout := []; stderr := [] |}, S w) in
  ∃ out rng' w',
    Experiment_run runner_run 4 tiny_config 3 (generator_of [x00; x01; x02]) 0%nat =
      Some (Ok (out, rng', w')) ∧
    Z.of_nat (size out) <= 3.
Proof.
  intros runner_run.
  assert (∃ out rng' w',
            Experiment_run runner_run 4 tiny_config 3 (generator_of [x00; x01; x02]) 0%nat =
            Some (Ok (out, rng', w'))) as (out & rng' & w' & Hrun).
  { eexists _, _, _. vm_compute. reflexivity. }
  exists out, rng', w'. split; [exact Hrun|].
  destruct (experiment_returns_successful_samples _ _ _ _ _ _ _ _ _ Hrun) as [Hsize _].
  exact Hsize.
Defined.

(** ** A generator that never repeats *)

Lemma counting_draw (len i : nat) :
  (0 < len)%nat →
  random_hex len {| tape := tape (counting_generator len); cursor := i * len |} =
  (bytes_hex (to_bytes len (Z.of_nat i)),
   {| tape := tape (counting_generator len); cursor := S i * len |}).
Proof.
  intros Hlen. unfold random_hex, rng_bytes. cbn [tape cursor counting_generator].
  f_equal; [f_equal | f_equal; lia].
  rewrite <- (tape_of_bytes (to_bytes len (Z.of_nat i))) at 1.
  rewrite to_bytes_length.
  replace (seq (i * len) len) with ((λ t, (i * len + t)%nat) <$> seq 0 len)
    by (rewrite fmap_add_seq; f_equal; lia).
  rewrite <- list_fmap_compose. apply map_ext_in. intros t Ht%in_seq. cbn.
  rewrite (Nat.add_comm (i * len) t), Nat.Div0.mod_add, Nat.div_add by lia.
  rewrite Nat.mod_small, Nat.div_small by lia. done.
Qed.

Lemma counting_key_inj (len i j : nat) :
  (0 < len)%nat →
  Z.of_nat i < 256 ^ Z.of_nat len → Z.of_nat j < 256 ^ Z.of_nat len →
  bytes_hex (to_bytes len (Z.of_nat i)) = bytes_hex (to_bytes len (Z.of_nat j)) →
  i = j.
Proof.
  intros Hlen Hi Hj Heq.
  assert (∀ k : nat, Z.of_nat k < 256 ^ Z.of_nat len →
            int16 (bytes_hex (to_bytes len (Z.of_nat k))) = Ok (Z.of_nat k)) as Hparse.
  { intros k Hk. rewrite int16_bytes_hex.
    - rewrite bytes_value_to_bytes by lia. done.
    - destruct len; [lia | done]. }
  pose proof (Hparse i Hi) as Hpi. rewrite Heq, (Hparse j Hj) in Hpi.
  injection Hpi as Hpi. lia.
Qed.

Lemma counting_loop (config : GeneratorConfig) (n_samples : Z) (k : nat) :
  ∀ (i : nat) (hm : gmap string (list Z)),
  (0 < bytes_needed config)%nat → 1 <= ascii_range config →
  0 <= ascii_min config → ascii_max config <= 1114111 →
  Z.of_nat (i + k) = n_samples → n_samples <= 256 ^ Z.of_nat (bytes_needed config) →
  size hm = i →
  (∀ h, is_Some (hm !! h) →
        ∃ j : nat, (j < i)%nat ∧
                   h = bytes_hex (to_bytes (bytes_needed config) (Z.of_nat j))) →
  ∃ hm' rng',
    sample_loop (S k) config n_samples hm
      {| tape := tape (counting_generator (bytes_needed config));
         cursor := i * bytes_needed config |} = Some (Ok (hm', rng')) ∧
    Z.of_nat (size hm') = n_samples.
Proof.
  induction k as [|k IH]; intros i hm Hb Hr Hmin Hmax Hn Hroom Hsize Hkeys.
  - cbn [sample_loop]. rewrite Hsize.
    destruct (Z.ltb_spec (Z.of_nat i) n_samples); [lia|].
    eexists _, _. split; [done | lia].
  - cbn [sample_loop]. rewrite Hsize.
    destruct (Z.ltb_spec (Z.of_nat i) n_samples); [|lia].
    rewrite counting_draw by done.
    destruct (hm !! _) as [q|] eqn:Hlook.
    { destruct (Hkeys _ (ex_intro _ q Hlook)) as (j & Hj & Heq).
      apply counting_key_inj in Heq; lia. }
    destruct (decode_drawn (bytes_needed config)
                {| tape := tape (counting_generator (bytes_needed config));
                   cursor := i * bytes_needed config |}
                (program_length config) (ascii_range config) (ascii_min config))
      as [program Hdec]; [done | done | done | unfold ascii_range in *; lia |].
    rewrite counting_draw in Hdec by done. cbn [fst] in Hdec. rewrite Hdec.
    apply IH; try done.
    + lia.
    + rewrite map_size_insert_None by done. lia.
    + intros h [p Hp]. rewrite lookup_insert in Hp. case_decide as Hh.
      * exists i. split; [lia | done].
      * destruct (Hkeys h (ex_intro _ p Hp)) as (j & Hj & ->).
        exists j. split; [lia | done].
Qed.

(** X13. The bound of the sampling phase is reached: with an alphabet of
    character codes and at least one byte per identifier, every request of
    at most [256^bytes_needed] samples is served, in [n_samples] draws, by
    a generator that never repeats a draw; the phase returns a map of
    exactly [n_samples] identifiers. *)
Theorem sampling_serves_up_to_the_drawable
    (config : GeneratorConfig) (n_samples : Z) :
  (0 < bytes_needed config)%nat → 1 <= ascii_range config →
  0 <= ascii_min config → ascii_max config <= 1114111 →
  0 <= n_samples <= 256 ^ Z.of_nat (bytes_needed config) →
  ∃ hm rng',
    sample_phase (S (Z.to_nat n_samples)) config n_samples
      (counting_generator (bytes_needed config)) = Some (Ok (hm, rng')) ∧
    Z.of_nat (size hm) = n_samples.
Proof.
  intros Hb Hr Hmin Hmax Hn. unfold sample_phase.
  apply (counting_loop config n_samples (Z.to_nat n_samples) 0 ∅); try done.
  - lia.
  - lia.
  - intros h [p Hp]. by rewrite lookup_empty in Hp.
Qed.

Lemma sampling_serves_up_to_the_drawable_witness :
  ∃ hm rng',
    sample_phase 257 tiny_config 256 (counting_generator 1) = Some (Ok (hm, rng')) ∧
    Z.of_nat (size hm) = 256.
Proof.
  apply (sampling_serves_up_to_the_drawable tiny_config 256);
    unfold ascii_range, tiny_config; cbn; lia.
Defined.
